(** * Resilient remote-data access of FPL-v1: circuit breaker, retry policy,
      registry and session cache

    A shallow embedding of

    - [src/utils/error_recovery.py]: [CircuitBreaker], [RetryStrategy],
      [EnhancedErrorRecovery] and the decorator [resilient_api_call];
    - [src/utils/performance_optimizer.py]: the session-state cache wrappers
      of [PerformanceOptimizer.cache_expensive_calculation] and
      [cache_resource], [batch_process] and [paginate_dataframe];
    - [src/core/cache/manager.py]: the statistics kept by [CacheManager];
    - [src/services/enhanced_fpl_data_service.py]: [test_connection].

    Conventions of the embedding.

    - Python [int] is [Z].  Python [float] (delays, clock readings) is an
      exact rational [Q]: rounding is not modelled.  Leaving the range of
      the floats is: a power that overflows and a sleep length that does not
      fit the C clock raise [OverflowError].
    - [datetime.now()] and [time.time()] read one clock, the field [now] of
      the [World]; it is advanced by a protected operation (by the time the
      operation runs) and by [time.sleep].
    - A protected operation is opaque to the subsystem.  It is given by what
      its k-th invocation does: how long it runs and whether it returns or
      raises.  The world counts the invocations.
    - A method of a mutable object is a function in the monad [M X], with [X]
      the object's fields: it takes the object and the world and gives back a
      result (a value or the exception raised) with the updated object and
      world. *)

From Stdlib Require Import ZArith QArith Qminmax Qpower Qabs Lqa Lia List Ascii
  String.
From stdpp Require Import base option list gmap strings.

Open Scope Z_scope.

(** ** Exceptions and results *)

(** The exceptions the subsystem tells apart.  [FPLError] (from
    [middleware.error_handling]) is built at two places of
    [error_recovery.py]; each place has a constructor that keeps what the
    message and [original_exception] are built from. *)
#[warnings="-register-all"]
Inductive Exn : Type :=
| BuiltinTimeoutError (msg : string)       (* TimeoutError or a subclass *)
| BuiltinConnectionError (msg : string)    (* ConnectionError or a subclass *)
| OtherException (type_name msg : string)  (* any other Exception *)
| CircuitOpenError (breaker_name : string)
    (* FPLError "Circuit breaker '<name>' is OPEN - service unavailable" *)
| RetriesFailedError (attempts : Z) (original_exception : option Exn).
    (* FPLError "All <n> retry attempts failed" *)

(** [isinstance(exception, (TimeoutError, ConnectionError))] *)
Definition is_timeout_or_connection (e : Exn) : bool :=
  match e with
  | BuiltinTimeoutError _ | BuiltinConnectionError _ => true
  | _ => false
  end.

Inductive Result (A : Type) : Type :=
| Ok (a : A)
| Err (e : Exn).
Arguments Ok {A} a.
Arguments Err {A} e.

(** ** The world: clock, protected operations, sleeping, randomness *)

Record World : Type := mkWorld {
  now : Q;                (* the clock, in seconds *)
  invocations : nat;      (* protected operations run so far *)
  sleeps : list Q;        (* the arguments of time.sleep, oldest first *)
  draws : nat;            (* calls of random.random() so far *)
  random : nat -> Q       (* what the k-th call of random.random() returns *)
}.

Inductive Outcome (V : Type) : Type :=
| Returns (v : V)
| Raises (e : Exn).
Arguments Returns {V} v.
Arguments Raises {V} e.

(** What the k-th invocation does: the time it runs and how it ends. *)
Definition Operation (V : Type) : Type := nat -> Q * Outcome V.

Definition invoke {V} (func : Operation V) (w : World) : Outcome V * World :=
  let '(d, o) := func (invocations w) in
  (o, mkWorld (now w + d)%Q (S (invocations w)) (sleeps w) (draws w) (random w)).

(** [random.random()] *)
Definition random_random (w : World) : Q * World :=
  (random w (draws w),
   mkWorld (now w) (invocations w) (sleeps w) (S (draws w)) (random w)).

(** Methods of an object with fields [X]. *)
Definition M (X A : Type) : Type := X -> World -> Result A * X * World.

(** ** Floats that leave their range *)

(** A float result rounds to an infinity when its magnitude reaches
    [2^1024 - 2^970], half a step above the largest float. *)
Definition float_overflow_bound : Q := inject_Z (2 ^ 1024 - 2 ^ 970).
Arguments float_overflow_bound : simpl never.

(** [x ** n] for a float [x] and an int [n >= 0]: [float.__pow__] raises
    [OverflowError] when the result is out of range (and gives 0.0, without
    an error, when it is too small). *)
Definition float_pow (x : Q) (n : nat) : Result Q :=
  let y := (x ^ Z.of_nat n)%Q in
  if Qle_bool float_overflow_bound (Qabs y)
  then Err (OtherException "OverflowError"
              "(34, 'Numerical result out of range')")
  else Ok y.

(** [time.sleep] (CPython 3.11) first converts the length to a C integer of
    nanoseconds: the float [delay * 1e9] has to lie in [-2^63, 2^63).  For
    the exact product, rounded to the nearest float, that is from
    [-(2^63 + 1024)] on and below [2^63 - 512]. *)
Definition sleep_overflows (delay : Q) : bool :=
  let d := (delay * 1000000000)%Q in
  Qle_bool (inject_Z (2 ^ 63 - 512)) d
  || negb (Qle_bool (inject_Z (- (2 ^ 63 + 1024))) d).

(** [time.sleep(delay)]: [OverflowError] on a length the conversion refuses,
    then [ValueError] on a negative length.  A length that is converted but
    whose end the clock of the operating system cannot express (the last
    [uptime] seconds below [2^63] ns, where the system call fails) is slept
    here like any other: [sleep_limit] below keeps clear of it. *)
Definition time_sleep {X} (delay : Q) : M X unit :=
  fun x w =>
    if sleep_overflows delay
    then (Err (OtherException "OverflowError"
                 "timestamp too large to convert to C _PyTime_t"),
          x, w)
    else if Qle_bool 0 delay
    then (Ok tt, x,
          mkWorld (now w + delay)%Q (invocations w) (sleeps w ++ [delay])
                  (draws w) (random w))
    else (Err (OtherException "ValueError" "sleep length must be non-negative"),
          x, w).

(** ** CircuitBreaker *)

Inductive CircuitState : Type := CLOSED | OPEN | HALF_OPEN.

Record CircuitBreakerConfig : Type := mkConfig {
  failure_threshold : Z;
  recovery_timeout : Z;      (* seconds *)
  success_threshold : Z;     (* successes needed to close circuit *)
  timeout : Z                (* request timeout *)
}.

(** [CircuitBreakerConfig()] *)
Definition CircuitBreakerConfig_default : CircuitBreakerConfig :=
  mkConfig 5 60 2 30.

Record CircuitBreaker : Type := mkBreaker {
  config : CircuitBreakerConfig;
  name : string;
  state : CircuitState;
  failure_count : Z;
  success_count : Z;
  last_failure_time : option Q;
  total_requests : Z;
  total_failures : Z;
  total_timeouts : Z
}.

(** [CircuitBreaker.__init__] *)
Definition CircuitBreaker_init (cfg : CircuitBreakerConfig) (nm : string)
  : CircuitBreaker :=
  mkBreaker cfg nm CLOSED 0 0 None 0 0 0.

(** [CircuitBreaker._should_attempt_reset], at clock reading [t] *)
Definition _should_attempt_reset (b : CircuitBreaker) (t : Q) : bool :=
  match last_failure_time b with
  | None => true
  | Some l => Qle_bool (inject_Z (recovery_timeout (config b))) (t - l)
  end.

(** [CircuitBreaker._on_success] *)
Definition _on_success (b : CircuitBreaker) (duration : Q) : CircuitBreaker :=
  match state b with
  | HALF_OPEN =>
      let sc := success_count b + 1 in
      if success_threshold (config b) <=? sc
      then mkBreaker (config b) (name b) CLOSED 0 0 (last_failure_time b)
             (total_requests b) (total_failures b) (total_timeouts b)
      else mkBreaker (config b) (name b) (state b) (failure_count b) sc
             (last_failure_time b)
             (total_requests b) (total_failures b) (total_timeouts b)
  | CLOSED =>
      mkBreaker (config b) (name b) (state b) 0 (success_count b)
        (last_failure_time b)
        (total_requests b) (total_failures b) (total_timeouts b)
  | OPEN => b
  end.

(** [CircuitBreaker._on_failure], at clock reading [t] *)
Definition _on_failure (b : CircuitBreaker) (exception : Exn) (t : Q)
  : CircuitBreaker :=
  let fc := failure_count b + 1 in
  mkBreaker (config b) (name b)
    (if failure_threshold (config b) <=? fc then OPEN else state b)
    fc (success_count b) (Some t)
    (total_requests b) (total_failures b + 1)
    (if is_timeout_or_connection exception
     then total_timeouts b + 1 else total_timeouts b).

(** The first locked block of [CircuitBreaker.call] (lines 55-69): count the
    request, then reject, or move an open breaker to half-open. *)
Definition call_guard : M CircuitBreaker unit :=
  fun b w =>
    let b1 := mkBreaker (config b) (name b) (state b) (failure_count b)
                (success_count b) (last_failure_time b)
                (total_requests b + 1) (total_failures b) (total_timeouts b) in
    match state b1 with
    | OPEN =>
        if negb (_should_attempt_reset b1 (now w))
        then (Err (CircuitOpenError (name b1)), b1, w)
        else (Ok tt,
              mkBreaker (config b1) (name b1) HALF_OPEN (failure_count b1)
                (success_count b1) (last_failure_time b1)
                (total_requests b1) (total_failures b1) (total_timeouts b1),
              w)
    | _ => (Ok tt, b1, w)
    end.

(** [CircuitBreaker.call] *)
Definition call {V} (func : Operation V) : M CircuitBreaker V :=
  fun b w =>
    match call_guard b w with
    | (Err e, b1, w1) => (Err e, b1, w1)
    | (Ok _, b1, w1) =>
        let start_time := now w1 in
        let '(o, w2) := invoke func w1 in
        match o with
        | Returns result =>
            let duration := (now w2 - start_time)%Q in
            (Ok result, _on_success b1 duration, w2)
        | Raises e => (Err e, _on_failure b1 e (now w2), w2)
        end
    end.

(** The breakers a program can hold: built by the constructor and changed by
    [call] only. *)
Inductive reachable (cfg : CircuitBreakerConfig) (nm : string)
  : CircuitBreaker -> Prop :=
| reachable_init : reachable cfg nm (CircuitBreaker_init cfg nm)
| reachable_call {V} (func : Operation V) b w r b' w' :
    reachable cfg nm b ->
    call func b w = (r, b', w') ->
    reachable cfg nm b'.

(** [n] calls in a row, whatever each one gives. *)
Fixpoint calls {V} (n : nat) (func : Operation V) (b : CircuitBreaker)
  (w : World) : CircuitBreaker * World :=
  match n with
  | O => (b, w)
  | S n' => let '(_, b1, w1) := call func b w in calls n' func b1 w1
  end.

(** ** RetryStrategy *)

Record RetryStrategy : Type := mkRetry {
  max_attempts : Z;
  base_delay : Q;
  max_delay : Q;
  backoff_factor : Q;
  jitter : bool
}.

(** [RetryStrategy()] *)
Definition RetryStrategy_default : RetryStrategy :=
  mkRetry 3 1 60 2 true.

(** [RetryStrategy._calculate_delay].  Of its float operations only the
    power raises; a product out of range is an infinity, which [min] caps. *)
Definition _calculate_delay (s : RetryStrategy) (attempt : nat) (w : World)
  : Result Q * World :=
  match float_pow (backoff_factor s) attempt with
  | Err e => (Err e, w)
  | Ok p =>
      let delay := (base_delay s * p)%Q in
      let delay := Qmin delay (max_delay s) in
      if jitter s
      then let '(r, w1) := random_random w in
           (Ok (delay * ((1 # 2) + r * (1 # 2)))%Q, w1)
      else (Ok delay, w)
  end.

(** The [for] loop of [RetryStrategy.execute] over the attempts left, and the
    [raise] after it.  The delay is computed and slept inside the [except]
    block: what is raised there leaves [execute] as it is. *)
Fixpoint execute_loop {X V} (s : RetryStrategy) (func : M X V)
  (attempts : list nat) (last_exception : option Exn) : M X V :=
  match attempts with
  | [] => fun x w =>
      (Err (RetriesFailedError (max_attempts s) last_exception), x, w)
  | attempt :: rest => fun x w =>
      match func x w with
      | (Ok v, x1, w1) => (Ok v, x1, w1)
      | (Err e, x1, w1) =>
          if Z.of_nat attempt <? max_attempts s - 1
          then
            match _calculate_delay s attempt w1 with
            | (Err e', w2) => (Err e', x1, w2)
            | (Ok delay, w2) =>
                match time_sleep delay x1 w2 with
                | (Err e', x2, w3) => (Err e', x2, w3)
                | (Ok _, x2, w3) => execute_loop s func rest (Some e) x2 w3
                end
            end
          else execute_loop s func rest (Some e) x1 w1
      end
  end.

(** [RetryStrategy.execute]; [range(max_attempts)] is empty when
    [max_attempts <= 0]. *)
Definition execute {X V} (s : RetryStrategy) (func : M X V) : M X V :=
  execute_loop s func (seq 0 (Z.to_nat (max_attempts s))) None.


(** A breaker that is not closed has counted at least [failure_threshold]
    failures. *)
Definition tripped (b : CircuitBreaker) : Prop :=
  state b <> CLOSED -> failure_threshold (config b) <= failure_count b.

(** The operation raises at every invocation. *)
Definition always_raises {V} (func : Operation V) : Prop :=
  forall k, exists e, snd (func k) = Raises e.

(** C1 as the claim has it for the transition from open to half-open. *)
Definition half_open_entry_resets_success_count : Prop :=
  forall cfg nm b w b1,
    reachable cfg nm b ->
    state b = OPEN ->
    call_guard b w = (Ok tt, b1, w) ->
    state b1 = HALF_OPEN ->
    success_count b1 = 0.

(** [execute(func)] with a bare operation: the object state is not touched. *)
Definition run {X V} (func : Operation V) : M X V :=
  fun x w =>
    match invoke func w with
    | (Returns v, w1) => (Ok v, x, w1)
    | (Raises e, w1) => (Err e, x, w1)
    end.

(** The delay the specification gives for an attempt, before jitter. *)
Definition spec_delay (s : RetryStrategy) (attempt : nat) : Q :=
  Qmin (base_delay s * backoff_factor s ^ Z.of_nat attempt)%Q (max_delay s).

(** The factor jitter multiplies the k-th delay of a run started in [w] by. *)
Definition jitter_factor (w : World) (k : nat) : Q :=
  ((1 # 2) + random w (draws w + k)%nat * (1 # 2))%Q.

(** The j-th delay of a loop that starts at attempt [a] in world [w]: the
    source's delay for attempt [a + j], with the j-th draw from [w] on. *)
Definition attempt_delay (s : RetryStrategy) (w : World) (a j : nat) : Q :=
  if jitter s
  then (spec_delay s (a + j) * jitter_factor w j)%Q
  else spec_delay s (a + j).

(** [random.random()] returns a number in [0, 1). *)
Definition random_in_unit_interval (w : World) : Prop :=
  forall k, (0 <= random w k)%Q /\ (random w k < 1)%Q.

(** [backoff_factor ** attempt] is a float. *)
Definition pow_in_range (s : RetryStrategy) (attempt : nat) : Prop :=
  (Qabs (backoff_factor s ^ Z.of_nat attempt) < float_overflow_bound)%Q.

(** Lengths that are slept whatever the machine: up to [2^62] ns, half of
    what the C clock holds (some 146 years). *)
Definition sleep_limit : Q := inject_Z (2 ^ 62) / 1000000000.

(** A policy whose attempts can be counted and whose delays can be computed
    and slept: at least one attempt, no negative duration or factor, a power
    in range for every attempt that is followed by a delay, and a cap on the
    delays that can be slept. *)
Record well_formed (s : RetryStrategy) : Prop := {
  wf_attempts : 1 <= max_attempts s;
  wf_base_delay : (0 <= base_delay s)%Q;
  wf_max_delay : (0 <= max_delay s)%Q;
  wf_backoff_factor : (0 <= backoff_factor s)%Q;
  wf_pow : forall attempt,
    Z.of_nat attempt < max_attempts s - 1 -> pow_in_range s attempt;
  wf_sleep : (max_delay s <= sleep_limit)%Q
}.

(** C4 as the claim has it for [execute]. *)
Definition every_policy_exhausts_retries : Prop :=
  forall (s : RetryStrategy) (func : Operation Z) (w : World),
    always_raises func ->
    exists e w',
      execute s (run func) tt w =
        (Err (RetriesFailedError (max_attempts s) (Some e)), tt, w') /\
      Z.of_nat (invocations w') = Z.of_nat (invocations w) + max_attempts s.

(** C8 as the claim has it for the delay of an attempt, without jitter. *)
Definition every_attempt_has_delay : Prop :=
  forall (s : RetryStrategy) (attempt : nat) (w : World),
    jitter s = false ->
    fst (_calculate_delay s attempt w) = Ok (spec_delay s attempt).

(** ** EnhancedErrorRecovery *)

(** An entry of [recent_errors].  The source stores [str(error)] and
    [type(error).__name__], both read off the exception kept here. *)
Record ErrorRecord : Type := mkErrorRecord {
  service : string;
  error : Exn;
  timestamp : Q
}.

Record EnhancedErrorRecovery : Type := mkRecovery {
  circuit_breakers : gmap string CircuitBreaker;
  retry_strategies : gmap string RetryStrategy;
  error_counts : gmap string Z;          (* defaultdict(int) *)
  recent_errors : list ErrorRecord       (* deque(maxlen=100), oldest first *)
}.

(** [EnhancedErrorRecovery.__init__] *)
Definition EnhancedErrorRecovery_init : EnhancedErrorRecovery :=
  mkRecovery ∅ ∅ ∅ [].

(** [deque.append] on a deque with [maxlen]: the oldest entries make room. *)
Definition deque_append {A} (maxlen : nat) (d : list A) (x : A) : list A :=
  let d' := d ++ [x] in
  drop (length d' - maxlen) d'.

(** [EnhancedErrorRecovery.get_circuit_breaker]; returns the registry and the
    breaker stored under [service_name].  An instance of the configuration
    dataclass is truthy, so [config or CircuitBreakerConfig()] is the default
    only for [None]. *)
Definition get_circuit_breaker (r : EnhancedErrorRecovery)
  (service_name : string) (cfg : option CircuitBreakerConfig)
  : EnhancedErrorRecovery * CircuitBreaker :=
  match circuit_breakers r !! service_name with
  | Some cb => (r, cb)
  | None =>
      let cfg := default CircuitBreakerConfig_default cfg in
      let cb := CircuitBreaker_init cfg service_name in
      (mkRecovery (<[service_name := cb]> (circuit_breakers r))
         (retry_strategies r) (error_counts r) (recent_errors r),
       cb)
  end.

(** The policy [get_retry_strategy] builds for a name it has not seen. *)
Definition strategy_catalog (strategy_name : string) : RetryStrategy :=
  if String.eqb strategy_name "api_calls" then mkRetry 3 1 60 2 true
  else if String.eqb strategy_name "critical_operations"
       then mkRetry 5 (1 # 2) 10 2 true
       else RetryStrategy_default.

(** [EnhancedErrorRecovery.get_retry_strategy] *)
Definition get_retry_strategy (r : EnhancedErrorRecovery)
  (strategy_name : string) : EnhancedErrorRecovery * RetryStrategy :=
  match retry_strategies r !! strategy_name with
  | Some s => (r, s)
  | None =>
      let s := strategy_catalog strategy_name in
      (mkRecovery (circuit_breakers r)
         (<[strategy_name := s]> (retry_strategies r))
         (error_counts r) (recent_errors r),
       s)
  end.

(** [EnhancedErrorRecovery._record_error], at clock reading [t] *)
Definition _record_error (r : EnhancedErrorRecovery) (service_name : string)
  (e : Exn) (t : Q) : EnhancedErrorRecovery :=
  mkRecovery (circuit_breakers r) (retry_strategies r)
    (<[service_name := default 0 (error_counts r !! service_name) + 1]>
       (error_counts r))
    (deque_append 100 (recent_errors r) (mkErrorRecord service_name e t)).

(** [EnhancedErrorRecovery.resilient_call].  [protected_call] closes over the
    breaker object, which is also the registry's entry for [service_name]:
    the retry loop runs on that object's fields, and the registry shows them
    when the loop is over. *)
Definition resilient_call {V} (func : Operation V) (service_name : string)
  (retry_strategy : string) (circuit_config : option CircuitBreakerConfig)
  : M EnhancedErrorRecovery V :=
  fun r w =>
    let '(r1, circuit_breaker) :=
      get_circuit_breaker r service_name circuit_config in
    let '(r2, retry) := get_retry_strategy r1 retry_strategy in
    let protected_call := call func in
    let '(res, cb', w1) := execute retry protected_call circuit_breaker w in
    let r3 := mkRecovery (<[service_name := cb']> (circuit_breakers r2))
                (retry_strategies r2) (error_counts r2) (recent_errors r2) in
    match res with
    | Ok v => (Ok v, r3, w1)
    | Err e => (Err e, _record_error r3 service_name e (now w1), w1)
    end.

(** Every stored policy is the catalog's policy for its name: the registry's
    policies were put there by [get_retry_strategy]. *)
Definition strategies_from_catalog (r : EnhancedErrorRecovery) : Prop :=
  forall k s, retry_strategies r !! k = Some s -> s = strategy_catalog k.

(** The function [resilient_api_call(service_name, retry_strategy)] puts in
    place of [func].  The state threaded here is the module's global
    [error_recovery], which the wrapper does not use: it builds a registry of
    its own and drops it on return.

    [resilient_call] takes [circuit_config] as its fourth positional
    parameter, so the first positional argument given to the wrapper is bound
    to it and [func] gets the others; [circuit_config] is that argument
    ([None] when there is none) and [args] the rest. *)
Definition resilient_api_call {A V} (service_name retry_strategy : string)
  (func : A -> Operation V)
  (circuit_config : option CircuitBreakerConfig) (args : A)
  : M EnhancedErrorRecovery V :=
  fun error_recovery w =>
    let recovery := EnhancedErrorRecovery_init in
    let '(res, _, w1) :=
      resilient_call (func args) service_name retry_strategy circuit_config
        recovery w in
    (res, error_recovery, w1).

(** ** Session cache *)

(** What [st.session_state] holds: results of cached functions, the floats
    stored as their timestamps, and the statistics of [CacheManager]. *)
Inductive SessionValue (V : Type) : Type :=
| SResult (v : V)
| SFloat (t : Q)
| SStats (hits misses invalidations : Z).
Arguments SResult {V} v.
Arguments SFloat {V} t.
Arguments SStats {V} hits misses invalidations.

(** [CacheManager.__init__] *)
Definition CacheManager_init {V} (ss : gmap string (SessionValue V))
  : gmap string (SessionValue V) :=
  match ss !! "cache_stats" with
  | Some _ => ss
  | None => <["cache_stats" := SStats 0 0 0]> ss
  end.

(** [CacheManager.record_cache_hit]; on an entry that is not the statistics
    the subscript would raise, the session stays as it is *)
Definition record_cache_hit {V} (ss : gmap string (SessionValue V))
  : gmap string (SessionValue V) :=
  match ss !! "cache_stats" with
  | Some (SStats h m i) => <["cache_stats" := SStats (h + 1) m i]> ss
  | _ => ss
  end.

(** [CacheManager.record_cache_miss] *)
Definition record_cache_miss {V} (ss : gmap string (SessionValue V))
  : gmap string (SessionValue V) :=
  match ss !! "cache_stats" with
  | Some (SStats h m i) => <["cache_stats" := SStats h (m + 1) i]> ss
  | _ => ss
  end.

(** [CacheManager.get_cache_stats] *)
Definition get_cache_stats {V} (ss : gmap string (SessionValue V))
  : SessionValue V :=
  default (SStats 0 0 0) (ss !! "cache_stats").

(** The key the wrapper of [cache_expensive_calculation] builds:
    [cache_<module>_<name>_<hash of the arguments>], without the hash when
    hashing raised. *)
Definition cache_key (func_module func_name : string)
  (args_hash : option string) : string :=
  match args_hash with
  | Some h => "cache_" +:+ func_module +:+ "_" +:+ func_name +:+ "_" +:+ h
  | None => "cache_" +:+ func_module +:+ "_" +:+ func_name
  end.

Definition timestamp_key (key : string) : string := key +:+ "_timestamp".

(** The wrapper of [PerformanceOptimizer.cache_expensive_calculation(ttl)],
    for a function whose arguments gave the key [key]. *)
Definition cached_call {V} (ttl : Z) (key : string) (func : Operation V)
  : M (gmap string (SessionValue V)) (SessionValue V) :=
  fun ss w =>
    let compute :=
      match invoke func w with
      | (Raises e, w1) => (Err e, ss, w1)
      | (Returns result, w1) =>
          (Ok (SResult result),
           <[timestamp_key key := SFloat (now w1)]>
             (<[key := SResult result]> ss),
           w1)
      end in
    match ss !! key with
    | Some stored =>
        match default (SFloat 0) (ss !! timestamp_key key) with
        | SFloat cache_time =>
            if negb (Qle_bool (inject_Z ttl) (now w - cache_time))
            then (Ok stored, ss, w)
            else compute
        | _ =>
            (Err (OtherException "TypeError" "unsupported operand type(s) for -"),
             ss, w)
        end
    | None => compute
    end.


(** There is no entry for [key], or its timestamp (0 when none is stored) is
    [ttl] or more in the past at time [t]. *)
Definition stale {V} (ss : gmap string (SessionValue V)) (key : string)
  (ttl : Z) (t : Q) : Prop :=
  ss !! key = None \/
  exists cache_time,
    default (SFloat 0) (ss !! timestamp_key key) = SFloat cache_time /\
    (inject_Z ttl <= t - cache_time)%Q.


(** C7 as the claim has it: a call whose operation runs longer than
    [timeout] is a failure counted as a timeout. *)
Definition slow_call_is_timeout : Prop :=
  forall (func : Operation Z) b w d o,
    state b = CLOSED ->
    func (invocations w) = (d, o) ->
    (inject_Z (timeout (config b)) < d)%Q ->
    exists e b' w',
      call func b w = (Err e, b', w') /\
      total_timeouts b' = total_timeouts b + 1 /\
      total_failures b' = total_failures b + 1.

(** ** Metrics and health *)

(** What [CircuitBreaker.metrics] returns; [last_failure_time] is kept as the
    time, where the source gives its ISO text. *)
Record Metrics : Type := mkMetrics {
  m_name : string;
  m_state : CircuitState;
  m_failure_count : Z;
  m_success_count : Z;
  m_total_requests : Z;
  m_total_failures : Z;
  m_total_timeouts : Z;
  m_success_rate : Q;
  m_last_failure_time : option Q
}.

(** [CircuitBreaker.metrics] *)
Definition metrics (b : CircuitBreaker) : Metrics :=
  mkMetrics (name b) (state b) (failure_count b) (success_count b)
    (total_requests b) (total_failures b) (total_timeouts b)
    (1 - inject_Z (total_failures b) / inject_Z (Z.max 1 (total_requests b)))%Q
    (last_failure_time b).

Record HealthStatus : Type := mkHealthStatus {
  hs_circuit_breakers : gmap string Metrics;
  hs_error_counts : gmap string Z;
  hs_recent_errors : list ErrorRecord;
  hs_timestamp : Q
}.

(** [EnhancedErrorRecovery.health_status], at clock reading [t];
    [list(self.recent_errors)[-10:]] is the last ten entries, all of them
    when there are fewer. *)
Definition health_status (r : EnhancedErrorRecovery) (t : Q) : HealthStatus :=
  mkHealthStatus (metrics <$> circuit_breakers r) (error_counts r)
    (drop (length (recent_errors r) - 10) (recent_errors r)) t.

(** The counters of a breaker are ordered: timeouts are failures, and
    failures are requests. *)
Definition totals_ordered (b : CircuitBreaker) : Prop :=
  0 <= total_timeouts b /\ total_timeouts b <= total_failures b /\
  total_failures b <= total_requests b.

(** The operation returns at every invocation. *)
Definition always_returns {V} (func : Operation V) : Prop :=
  forall k, exists v, snd (func k) = Returns v.

(** What every breaker built by the constructor and driven by [call]
    satisfies. *)
Record breaker_invariant (b : CircuitBreaker) : Prop := {
  inv_totals : totals_ordered b;
  inv_failure_count : 0 <= failure_count b <= total_failures b;
  inv_success_count :
    0 <= success_count b /\
    (success_count b = 0 \/ success_count b < success_threshold (config b));
  inv_failure_time :
    state b <> CLOSED \/ 0 < failure_count b ->
    exists l, last_failure_time b = Some l;
  inv_closed :
    1 <= failure_threshold (config b) -> state b = CLOSED ->
    failure_count b < failure_threshold (config b)
}.

(** ** Session cache: resources *)

(** The key the wrapper of [cache_resource] builds: the arguments of the call
    are not part of it. *)
Definition resource_key (func_module func_name : string) : string :=
  "resource_" +:+ func_module +:+ "_" +:+ func_name.

(** The wrapper of [PerformanceOptimizer.cache_resource] for a function with
    key [key], called with [args]. *)
Definition cached_resource {A V} (key : string) (func : A -> Operation V)
  (args : A) : M (gmap string (SessionValue V)) (SessionValue V) :=
  fun ss w =>
    match ss !! key with
    | Some stored => (Ok stored, ss, w)
    | None =>
        match invoke (func args) w with
        | (Raises e, w1) => (Err e, ss, w1)
        | (Returns result, w1) =>
            (Ok (SResult result), <[key := SResult result]> ss, w1)
        end
    end.

(** The string has the character [_]. *)
Fixpoint has_underscore (s : string) : bool :=
  match s with
  | EmptyString => false
  | String c rest =>
      if Ascii.eqb c "_"%char then true else has_underscore rest
  end.

(** ** Batches *)




(** ** A caller: the connection test of the data service *)

(** [isinstance(e, FPLError)]: the two errors built in [error_recovery.py]
    and the [FPLError]s a protected operation builds itself. *)
Definition is_FPLError (e : Exn) : bool :=
  match e with
  | CircuitOpenError _ | RetriesFailedError _ _ => true
  | OtherException type_name _ => String.eqb type_name "FPLError"
  | _ => false
  end.

(** The closure [_test_api_connection] catches every exception of the
    request and raises an [FPLError] in its place: whatever it raises is an
    [FPLError]. *)
Definition raises_only_FPLError {V} (func : Operation V) : Prop :=
  forall k e, snd (func k) = Raises e -> is_FPLError e = true.

(** The body of [EnhancedFPLDataService.test_connection] (under its
    decorator [monitor_performance], which is not part of these sources),
    on the module's registry [error_recovery]; [_test_api_connection] is
    the closure it builds. *)
Definition test_connection (_test_api_connection : Operation bool)
  : M EnhancedErrorRecovery bool :=
  fun error_recovery w =>
    match resilient_call _test_api_connection "fpl_api" "api_calls" None
            error_recovery w with
    | (Ok v, r, w1) => (Ok v, r, w1)
    | (Err e, r, w1) =>
        if is_FPLError e then (Ok false, r, w1) else (Err e, r, w1)
    end.

(** ** Pages *)

(** Where an index of a slice falls in a sequence of [n] rows: a negative
    index counts from the end, and both ends are clipped. *)
Definition slice_index (n : nat) (i : Z) : nat :=
  if i <? 0 then Z.to_nat (Z.max 0 (Z.of_nat n + i))
  else Nat.min (Z.to_nat i) n.

(** [df.iloc[start:stop]] on the rows of a frame *)
Definition iloc_slice {A} (df : list A) (start stop : Z) : list A :=
  let s := slice_index (length df) start in
  let e := slice_index (length df) stop in
  take (e - s) (drop s df).

(** [max(1, (len(df) - 1) // page_size + 1)] *)
Definition total_pages (len : nat) (page_size : Z) : Z :=
  Z.max 1 ((Z.of_nat len - 1) / page_size + 1).

(** [PerformanceOptimizer.paginate_dataframe] on the rows of the frame;
    [page] is what the number input gives, which the widget keeps between 1
    and [total_pages].  The division raises for a page size of 0.  A frame
    is its list of rows, so [df.empty] is [df = []]: frames with rows and no
    column are left out. *)
Definition paginate_dataframe {A} (df : list A) (page_size page : Z)
  : Result (list A) :=
  match df with
  | [] => Ok df
  | _ =>
      if page_size =? 0
      then Err (OtherException "ZeroDivisionError"
                  "integer division or modulo by zero")
      else
        let start_idx := (page - 1) * page_size in
        let end_idx := Z.min (start_idx + page_size) (Z.of_nat (length df)) in
        Ok (iloc_slice df start_idx end_idx)
  end.

(** The same breaker under another [timeout]. *)
Definition set_timeout (t : Z) (b : CircuitBreaker) : CircuitBreaker :=
  mkBreaker
    (mkConfig (failure_threshold (config b)) (recovery_timeout (config b))
       (success_threshold (config b)) t)
    (name b) (state b) (failure_count b) (success_count b)
    (last_failure_time b) (total_requests b) (total_failures b)
    (total_timeouts b).

(** ** Sample data *)

Definition sample_config : CircuitBreakerConfig := mkConfig 1 60 2 30.

(** Raises at its even invocations, returns 7 at the odd ones. *)
Definition flaky : Operation Z :=
  fun k => (0%Q, if Nat.even k
                 then Raises (BuiltinTimeoutError "timed out")
                 else Returns 7).

Definition world_at (t : Q) (k : nat) : World :=
  mkWorld t k [] 0 (fun _ => 0%Q).

(** after a failure at time 0 *)
Definition sample_open : CircuitBreaker :=
  mkBreaker sample_config "fpl_api" OPEN 1 0 (Some 0%Q) 1 1 1.
(** after a success at time 100 *)
Definition sample_half_open : CircuitBreaker :=
  mkBreaker sample_config "fpl_api" HALF_OPEN 1 1 (Some 0%Q) 2 1 1.
(** after a failure at time 200 *)
Definition sample_reopened : CircuitBreaker :=
  mkBreaker sample_config "fpl_api" OPEN 2 1 (Some 200%Q) 3 2 2.

(** returns 7 after 31 seconds *)
Definition slow : Operation Z := fun _ => (31%Q, Returns 7).

(** raises a timeout at once, at every invocation *)
Definition failing : Operation Z :=
  fun _ => (0%Q, Raises (BuiltinTimeoutError "timed out")).

Definition sample_key : string :=
  cache_key "services.fpl" "get_players" (Some "d41d8cd9").

(** a session with statistics and an entry stored at time 0 *)
Definition sample_session : gmap string (SessionValue Z) :=
  <[timestamp_key sample_key := SFloat 0]>
    (<[sample_key := SResult 7]>
       (<["cache_stats" := SStats 0 0 0]> ∅)).

(* ================================================================== *)
(** * Properties *)

(** ** CircuitBreaker: basic facts *)

Lemma call_guard_not_open b w :
  state b <> OPEN ->
  call_guard b w =
    (Ok tt,
     mkBreaker (config b) (name b) (state b) (failure_count b)
       (success_count b) (last_failure_time b)
       (total_requests b + 1) (total_failures b) (total_timeouts b),
     w).
Proof.
  intros Hs. unfold call_guard. simpl.
  destruct (state b); try reflexivity. contradiction.
Qed.

Lemma call_guard_world b w r b' w' :
  call_guard b w = (r, b', w') -> w' = w.
Proof.
  unfold call_guard. simpl.
  destruct (state b); try (intros [= _ _ <-]; reflexivity).
  destruct (negb _); intros [= _ _ <-]; reflexivity.
Qed.

Lemma call_guard_config b w r b' w' :
  call_guard b w = (r, b', w') -> config b' = config b /\ name b' = name b.
Proof.
  unfold call_guard. simpl.
  destruct (state b); try (intros [= _ <- _]; split; reflexivity).
  destruct (negb _); intros [= _ <- _]; split; reflexivity.
Qed.

Lemma _on_success_config b d :
  config (_on_success b d) = config b /\ name (_on_success b d) = name b.
Proof.
  unfold _on_success. destruct (state b); simpl; auto.
  destruct (_ <=? _); simpl; auto.
Qed.

Lemma call_config {V} (func : Operation V) b w r b' w' :
  call func b w = (r, b', w') -> config b' = config b /\ name b' = name b.
Proof.
  unfold call. destruct (call_guard b w) as [[g b1] w1] eqn:Hg.
  apply call_guard_config in Hg. destruct Hg as [Hc Hn].
  destruct g as [u|e].
  - destruct (invoke func w1) as [o w2]. destruct o as [v|e].
    + intros [= _ <- _]. destruct (_on_success_config b1 (now w2 - now w1)%Q).
      split; congruence.
    + intros [= _ <- _]. simpl. auto.
  - intros [= _ <- _]. auto.
Qed.

Lemma reachable_config cfg nm b :
  reachable cfg nm b -> config b = cfg /\ name b = nm.
Proof.
  induction 1 as [|V func b w r b' w' _ [IHc IHn] Hcall]; [split; reflexivity|].
  apply call_config in Hcall. destruct Hcall. split; congruence.
Qed.

(** ** CircuitBreaker: a breaker that is not closed has reached its threshold *)


Lemma call_guard_tripped b w r b' w' :
  tripped b -> call_guard b w = (r, b', w') -> tripped b'.
Proof.
  unfold tripped, call_guard. simpl. intros Hb.
  destruct (state b) eqn:Hs.
  - intros [= _ <- _]. simpl. congruence.
  - destruct (negb _); intros [= _ <- _]; simpl; intros _; apply Hb; congruence.
  - intros [= _ <- _]. simpl. intros _. apply Hb. congruence.
Qed.

Lemma _on_success_tripped b d : tripped b -> tripped (_on_success b d).
Proof.
  unfold tripped, _on_success. intros Hb.
  destruct (state b) eqn:Hs; simpl.
  - congruence.
  - rewrite Hs. intros _. apply Hb. congruence.
  - destruct (_ <=? _); simpl; [congruence|].
    intros _. apply Hb. congruence.
Qed.

Lemma _on_failure_tripped b e t : tripped b -> tripped (_on_failure b e t).
Proof.
  unfold tripped, _on_failure. simpl. intros Hb.
  destruct (Z.leb_spec (failure_threshold (config b)) (failure_count b + 1))
    as [Hle|Hlt]; [intros _; exact Hle|].
  intros Hs. specialize (Hb Hs). lia.
Qed.

Lemma call_tripped {V} (func : Operation V) b w r b' w' :
  tripped b -> call func b w = (r, b', w') -> tripped b'.
Proof.
  intros Hb. unfold call.
  destruct (call_guard b w) as [[g b1] w1] eqn:Hg.
  pose proof (call_guard_tripped _ _ _ _ _ Hb Hg) as Hb1.
  destruct g as [u|e].
  - destruct (invoke func w1) as [o w2]. destruct o as [v|e].
    + intros [= _ <- _]. apply _on_success_tripped, Hb1.
    + intros [= _ <- _]. apply _on_failure_tripped, Hb1.
  - intros [= _ <- _]. exact Hb1.
Qed.

Lemma reachable_tripped cfg nm b : reachable cfg nm b -> tripped b.
Proof.
  induction 1 as [|V func b w r b' w' _ IH Hcall].
  - unfold tripped. simpl. congruence.
  - eapply call_tripped; eauto.
Qed.

Lemma _on_failure_state_tripped b e t :
  tripped b -> state b <> CLOSED -> state (_on_failure b e t) = OPEN.
Proof.
  intros Hb Hs. unfold _on_failure. simpl.
  destruct (Z.leb_spec (failure_threshold (config b)) (failure_count b + 1))
    as [Hle|Hlt]; [reflexivity|].
  specialize (Hb Hs). lia.
Qed.

(** C2.  A breaker built by the constructor and driven through [call] only,
    and now half-open: one failure opens it, whatever [success_count] is.
    Both for the handler [_on_failure] and for a whole [call] whose
    operation raises. *)
Theorem half_open_failure_opens {V} cfg nm b (func : Operation V) w d e :
  reachable cfg nm b ->
  state b = HALF_OPEN ->
  func (invocations w) = (d, Raises e) ->
  (forall e' t, state (_on_failure b e' t) = OPEN) /\
  exists b' w',
    call func b w = (Err e, b', w') /\
    state b' = OPEN /\
    success_count b' = success_count b /\
    invocations w' = S (invocations w).
Proof.
  intros Hr Hs Hf. pose proof (reachable_tripped _ _ _ Hr) as Hb. split.
  - intros e' t. apply _on_failure_state_tripped; [exact Hb|congruence].
  - unfold call. rewrite call_guard_not_open by congruence.
    unfold invoke. rewrite Hf. eexists _, _. split; [reflexivity|].
    split; [|split; reflexivity].
    apply _on_failure_state_tripped.
    + unfold tripped in *. simpl. exact Hb.
    + simpl. congruence.
Qed.

(** ** CircuitBreaker: an open breaker before and after the recovery timeout *)


Lemma _should_attempt_reset_late b t l :
  last_failure_time b = Some l ->
  (inject_Z (recovery_timeout (config b)) <= t - l)%Q ->
  _should_attempt_reset b t = true.
Proof.
  intros Hl Hle. unfold _should_attempt_reset. rewrite Hl.
  apply Qle_bool_iff. exact Hle.
Qed.


(** C9.  An open breaker called once [recovery_timeout] has passed since the
    last failure: the guard of [call] lets the call through with the breaker
    half-open, and the call invokes the operation exactly once, handling its
    outcome on the half-open breaker. *)
Theorem call_open_late_probes {V} (func : Operation V) b w l :
  state b = OPEN ->
  last_failure_time b = Some l ->
  (inject_Z (recovery_timeout (config b)) <= now w - l)%Q ->
  exists b1,
    call_guard b w = (Ok tt, b1, w) /\
    state b1 = HALF_OPEN /\
    invocations (snd (call func b w)) = S (invocations w) /\
    call func b w =
      match invoke func w with
      | (Returns v, w2) => (Ok v, _on_success b1 (now w2 - now w)%Q, w2)
      | (Raises e, w2) => (Err e, _on_failure b1 e (now w2), w2)
      end.
Proof.
  intros Hs Hl Hle.
  assert (Hg : call_guard b w =
    (Ok tt,
     mkBreaker (config b) (name b) HALF_OPEN (failure_count b)
       (success_count b) (last_failure_time b)
       (total_requests b + 1) (total_failures b) (total_timeouts b), w)).
  { unfold call_guard. simpl. rewrite Hs.
    rewrite (_should_attempt_reset_late _ _ l); [reflexivity|exact Hl|exact Hle]. }
  eexists. split; [exact Hg|]. split; [reflexivity|].
  unfold call. rewrite Hg. unfold invoke.
  destruct (func (invocations w)) as [d [v|e]]; split; reflexivity.
Qed.

(** ** CircuitBreaker: consecutive failures of a closed breaker *)


Lemma call_closed_raises {V} (func : Operation V) b w :
  always_raises func ->
  state b = CLOSED ->
  exists r b' w',
    call func b w = (r, b', w') /\
    config b' = config b /\
    failure_count b' = failure_count b + 1 /\
    state b' =
      (if failure_threshold (config b) <=? failure_count b + 1
       then OPEN else CLOSED).
Proof.
  intros Hf Hs. unfold call. rewrite call_guard_not_open by congruence.
  unfold invoke. destruct (Hf (invocations w)) as [e He].
  destruct (func (invocations w)) as [d o]. simpl in He. subst o.
  eexists _, _, _. split; [reflexivity|]. simpl. rewrite Hs. auto.
Qed.

Lemma calls_raises_closed {V} (func : Operation V) n : forall b w,
  always_raises func ->
  state b = CLOSED ->
  failure_count b + Z.of_nat n < failure_threshold (config b) ->
  state (fst (calls n func b w)) = CLOSED /\
  failure_count (fst (calls n func b w)) = failure_count b + Z.of_nat n.
Proof.
  induction n as [|n IH]; intros b w Hf Hs Hlt.
  - simpl. split; [exact Hs|lia].
  - cbn [calls].
    destruct (call_closed_raises func b w Hf Hs)
      as (r & b' & w' & -> & Hc & Hfc & Hst).
    destruct (Z.leb_spec (failure_threshold (config b)) (failure_count b + 1));
      [lia|].
    destruct (IH b' w' Hf Hst) as [IHs IHc]; [rewrite Hc, Hfc; lia|].
    split; [exact IHs|]. rewrite IHc, Hfc. lia.
Qed.

Lemma calls_raises_open {V} (func : Operation V) n : forall b w,
  always_raises func ->
  state b = CLOSED ->
  (0 < n)%nat ->
  failure_count b + Z.of_nat n = failure_threshold (config b) ->
  state (fst (calls n func b w)) = OPEN.
Proof.
  induction n as [|n IH]; intros b w Hf Hs Hpos Heq; [lia|].
  cbn [calls].
  destruct (call_closed_raises func b w Hf Hs)
    as (r & b' & w' & -> & Hc & Hfc & Hst).
  destruct n as [|n].
  - simpl.
    destruct (Z.leb_spec (failure_threshold (config b)) (failure_count b + 1));
      [exact Hst|lia].
  - destruct (Z.leb_spec (failure_threshold (config b)) (failure_count b + 1));
      [lia|].
    apply IH; [exact Hf|exact Hst|lia|rewrite Hc, Hfc; lia].
Qed.

(** C5.  A closed breaker with [failure_count = 0] and a threshold of at
    least one (the configuration's fields are positive), called with an
    operation that raises at every invocation: after [failure_threshold]
    calls it is open, and after any smaller number of calls it is still
    closed. *)
Theorem threshold_failures_open {V} (func : Operation V) b w :
  1 <= failure_threshold (config b) ->
  state b = CLOSED ->
  failure_count b = 0 ->
  always_raises func ->
  state (fst (calls (Z.to_nat (failure_threshold (config b))) func b w)) = OPEN /\
  forall k, (k < Z.to_nat (failure_threshold (config b)))%nat ->
    state (fst (calls k func b w)) = CLOSED.
Proof.
  intros Ht Hs Hfc Hf. split.
  - apply calls_raises_open; [exact Hf|exact Hs|lia|lia].
  - intros k Hk. apply (calls_raises_closed func k b w Hf Hs). lia.
Qed.

(** ** Sample run of one breaker *)

Lemma sample_open_reachable : reachable sample_config "fpl_api" sample_open.
Proof.
  eapply (reachable_call _ _ flaky _ (world_at 0 0)); [apply reachable_init|].
  reflexivity.
Qed.

Lemma sample_half_open_reachable :
  reachable sample_config "fpl_api" sample_half_open.
Proof.
  eapply (reachable_call _ _ flaky _ (world_at 100 1));
    [apply sample_open_reachable|].
  reflexivity.
Qed.

Lemma sample_reopened_reachable :
  reachable sample_config "fpl_api" sample_reopened.
Proof.
  eapply (reachable_call _ _ flaky _ (world_at 200 2));
    [apply sample_half_open_reachable|].
  reflexivity.
Qed.

(** ** CircuitBreaker: which transitions reset which counter *)


(** With [failure_threshold = 1] and [success_threshold = 2]: a failure, a
    success 100 s later (half-open, one success counted), a failure (open
    again, the success still counted), and a call 100 s after that.  The
    breaker enters half-open with [success_count = 1]. *)
Lemma half_open_entry_keeps_success_count :
  reachable sample_config "fpl_api" sample_reopened /\
  state sample_reopened = OPEN /\
  (exists b1,
     call_guard sample_reopened (world_at 300 3) = (Ok tt, b1, world_at 300 3) /\
     state b1 = HALF_OPEN /\ success_count b1 = 1) /\
  ~ half_open_entry_resets_success_count.
Proof.
  split; [apply sample_reopened_reachable|].
  split; [reflexivity|].
  split.
  - eexists. split; [reflexivity|]. split; reflexivity.
  - intros H.
    specialize (H sample_config "fpl_api"%string sample_reopened (world_at 300 3) _
                  sample_reopened_reachable eq_refl eq_refl eq_refl).
    discriminate H.
Qed.

Lemma calls_reachable {V} cfg nm (func : Operation V) n : forall b w,
  reachable cfg nm b -> reachable cfg nm (fst (calls n func b w)).
Proof.
  induction n as [|n IH]; intros b w Hb; [exact Hb|].
  cbn [calls]. destruct (call func b w) as [[r b1] w1] eqn:Hc.
  apply IH. exact (reachable_call cfg nm func b w r b1 w1 Hb Hc).
Qed.

Lemma call_reachable {V} cfg nm (func : Operation V) b w :
  reachable cfg nm b -> reachable cfg nm (snd (fst (call func b w))).
Proof.
  intros Hb. destruct (call func b w) as [[r b1] w1] eqn:Hc.
  exact (reachable_call cfg nm func b w r b1 w1 Hb Hc).
Qed.

(** C1, the defect at the default configuration (five failures open the
    breaker, two successes close it).  Five failing calls at time 0 open the
    breaker.  The probe at time 100 returns: half-open, one success counted.
    The next call raises: open again, the success still counted.  The call
    at time 200 enters half-open with [success_count = 1], not 0, and when
    it returns the breaker closes: after one success of this half-open
    period, where [success_threshold] asks for two. *)
Theorem stale_success_count_closes_early :
  let b0 := CircuitBreaker_init CircuitBreakerConfig_default "fpl_api" in
  let b5 := fst (calls 5 failing b0 (world_at 0 0)) in
  let probe1 := call flaky b5 (world_at 100 1) in
  let b6 := snd (fst probe1) in
  let failed := call flaky b6 (world_at 100 2) in
  let b7 := snd (fst failed) in
  let entry := call_guard b7 (world_at 200 3) in
  let probe2 := call flaky b7 (world_at 200 3) in
  reachable CircuitBreakerConfig_default "fpl_api" b7 /\
  state b5 = OPEN /\
  (fst (fst probe1) = Ok 7 /\ state b6 = HALF_OPEN /\ success_count b6 = 1) /\
  (fst (fst failed) = Err (BuiltinTimeoutError "timed out") /\
   state b7 = OPEN /\ success_count b7 = 1) /\
  (fst (fst entry) = Ok tt /\
   state (snd (fst entry)) = HALF_OPEN /\
   success_count (snd (fst entry)) = 1) /\
  (fst (fst probe2) = Ok 7 /\ state (snd (fst probe2)) = CLOSED) /\
  success_threshold CircuitBreakerConfig_default = 2 /\
  ~ half_open_entry_resets_success_count.
Proof.
  intros b0 b5 probe1 b6 failed b7 entry probe2.
  assert (Hreach : reachable CircuitBreakerConfig_default "fpl_api" b7).
  { unfold b7, failed, b6, probe1, b5.
    apply call_reachable, call_reachable, calls_reachable, reachable_init. }
  split; [exact Hreach|].
  split; [reflexivity|].
  split; [vm_compute; repeat split|].
  split; [vm_compute; repeat split|].
  split; [vm_compute; repeat split|].
  split; [vm_compute; repeat split|].
  split; [reflexivity|].
  intros H.
  specialize (H CircuitBreakerConfig_default "fpl_api"%string b7
                (world_at 200 3) (snd (fst entry)) Hreach).
  assert (Hz : success_count (snd (fst entry)) = 0)
    by (apply H; vm_compute; reflexivity).
  vm_compute in Hz. discriminate Hz.
Qed.

(** What one [call] does to the counters, as the code is written:
    - the guard moves an open breaker to half-open by changing [state] only
      ([total_requests] apart);
    - a call that enters CLOSED leaves [failure_count = 0] and
      [success_count = 0];
    - a call on a closed breaker whose operation returns leaves the breaker
      closed with [failure_count = 0]. *)
Theorem call_counter_resets {V} (func : Operation V) b w r b' w' :
  call func b w = (r, b', w') ->
  (forall b1, state b = OPEN -> call_guard b w = (Ok tt, b1, w) ->
     state b1 = HALF_OPEN /\
     success_count b1 = success_count b /\
     failure_count b1 = failure_count b) /\
  (state b <> CLOSED -> state b' = CLOSED ->
     failure_count b' = 0 /\ success_count b' = 0) /\
  (state b = CLOSED -> forall v, r = Ok v ->
     state b' = CLOSED /\ failure_count b' = 0).
Proof.
  intros Hcall. split; [|split].
  - intros b1 Hs. unfold call_guard. simpl. rewrite Hs.
    destruct (negb _); [discriminate|]. intros [= <-]. auto.
  - revert Hcall. unfold call, call_guard. simpl.
    destruct (state b) eqn:Hs; [congruence| |].
    + destruct (negb _).
      * intros [= _ <- _]. simpl. congruence.
      * unfold invoke. destruct (func (invocations w)) as [d [v|e]].
        -- intros [= _ <- _] _. unfold _on_success. simpl.
           destruct (_ <=? _); simpl; [auto|discriminate].
        -- intros [= _ <- _] _. unfold _on_failure. simpl.
           destruct (_ <=? _); discriminate.
    + unfold invoke. destruct (func (invocations w)) as [d [v|e]].
      * intros [= _ <- _] _. unfold _on_success. simpl.
        destruct (_ <=? _); simpl; [auto|discriminate].
      * intros [= _ <- _] _. unfold _on_failure. simpl.
        destruct (_ <=? _); discriminate.
  - intros Hs v ->. revert Hcall. unfold call.
    rewrite call_guard_not_open by congruence.
    unfold invoke. destruct (func (invocations w)) as [d [v'|e]];
      [|discriminate].
    intros [= _ <- _]. unfold _on_success. simpl. rewrite Hs. simpl. auto.
Qed.

(** ** RetryStrategy: delays *)

Lemma float_pow_in_range s a :
  pow_in_range s a ->
  float_pow (backoff_factor s) a = Ok (backoff_factor s ^ Z.of_nat a)%Q.
Proof.
  unfold pow_in_range, float_pow. intros H. cbv zeta.
  destruct (Qle_bool float_overflow_bound _) eqn:E; [|reflexivity].
  apply Qle_bool_iff in E. exfalso. exact (Qlt_not_le _ _ H E).
Qed.

Lemma float_pow_out_of_range s a :
  ~ pow_in_range s a ->
  float_pow (backoff_factor s) a =
    Err (OtherException "OverflowError" "(34, 'Numerical result out of range')").
Proof.
  unfold pow_in_range, float_pow. intros H. cbv zeta.
  destruct (Qle_bool float_overflow_bound _) eqn:E; [reflexivity|].
  exfalso. apply H. apply Qnot_le_lt. intros Hle.
  apply Qle_bool_iff in Hle. congruence.
Qed.

Lemma spec_delay_bounds s k :
  (0 <= base_delay s)%Q -> (0 <= max_delay s)%Q -> (0 <= backoff_factor s)%Q ->
  (0 <= spec_delay s k)%Q /\ (spec_delay s k <= max_delay s)%Q.
Proof.
  intros Hb Hm Hf. unfold spec_delay. split; [|apply Q.le_min_r].
  apply Q.min_glb; [|exact Hm].
  apply Qmult_le_0_compat; [exact Hb|]. apply Qpower_0_le. exact Hf.
Qed.

Lemma spec_delay_nonneg s k : well_formed s -> (0 <= spec_delay s k)%Q.
Proof.
  intros Hs. apply spec_delay_bounds; apply Hs.
Qed.

Lemma jitter_factor_bounds w k :
  random_in_unit_interval w ->
  ((1 # 2) <= jitter_factor w k)%Q /\ (jitter_factor w k < 1)%Q.
Proof.
  intros Hr. unfold jitter_factor.
  destruct (Hr (draws w + k)%nat) as [H0 H1]. split; lra.
Qed.

Lemma attempt_delay_bounds s w a j :
  (0 <= base_delay s)%Q -> (0 <= max_delay s)%Q -> (0 <= backoff_factor s)%Q ->
  random_in_unit_interval w ->
  (0 <= attempt_delay s w a j)%Q /\ (attempt_delay s w a j <= max_delay s)%Q.
Proof.
  intros Hb Hm Hf Hr. unfold attempt_delay.
  destruct (spec_delay_bounds s (a + j) Hb Hm Hf) as [Hd Hcap].
  destruct (jitter s); [|split; assumption].
  destruct (jitter_factor_bounds w j Hr) as [Hlo Hhi]. split.
  - apply Qmult_le_0_compat; [exact Hd|lra].
  - assert (spec_delay s (a + j) * jitter_factor w j
            <= spec_delay s (a + j) * 1)%Q.
    { rewrite !(Qmult_comm (spec_delay s (a + j))).
      apply Qmult_le_compat_r; [lra|exact Hd]. }
    lra.
Qed.

Lemma attempt_delay_nonneg s w a j :
  well_formed s -> random_in_unit_interval w ->
  (0 <= attempt_delay s w a j)%Q.
Proof.
  intros Hs Hr. apply attempt_delay_bounds; [apply Hs..|exact Hr].
Qed.

Lemma _calculate_delay_eq s a w :
  pow_in_range s a ->
  _calculate_delay s a w =
    (Ok (attempt_delay s w a 0),
     if jitter s
     then mkWorld (now w) (invocations w) (sleeps w) (S (draws w)) (random w)
     else w).
Proof.
  intros Hp.
  unfold _calculate_delay, attempt_delay, jitter_factor, spec_delay,
    random_random.
  rewrite (float_pow_in_range s a Hp).
  rewrite !Nat.add_0_r. destruct (jitter s); reflexivity.
Qed.

Lemma _calculate_delay_overflow s a w :
  ~ pow_in_range s a ->
  _calculate_delay s a w =
    (Err (OtherException "OverflowError"
            "(34, 'Numerical result out of range')"), w).
Proof.
  intros Hp. unfold _calculate_delay.
  rewrite (float_pow_out_of_range s a Hp). reflexivity.
Qed.

(** ** RetryStrategy: the loop on an operation that always raises *)

Lemma sleep_overflows_in_limit (delay : Q) :
  (0 <= delay)%Q -> (delay <= sleep_limit)%Q -> sleep_overflows delay = false.
Proof.
  intros H0 Hl. unfold sleep_overflows. cbv zeta.
  unfold sleep_limit in Hl.
  change (inject_Z (2 ^ 62)) with (4611686018427387904 # 1)%Q in Hl.
  change (inject_Z (2 ^ 63 - 512)) with (9223372036854775296 # 1)%Q.
  change (inject_Z (- (2 ^ 63 + 1024))) with (-9223372036854776832 # 1)%Q.
  assert (Hd : (delay * 1000000000 <= 4611686018427387904 # 1)%Q).
  { apply (Qmult_le_compat_r _ _ 1000000000) in Hl; [|discriminate].
    eapply Qle_trans; [exact Hl|]. apply Qle_lteq. right. reflexivity. }
  apply orb_false_intro.
  - destruct (Qle_bool _ _) eqn:E; [|reflexivity].
    apply Qle_bool_iff in E. lra.
  - apply negb_false_iff. apply Qle_bool_iff. lra.
Qed.

Lemma time_sleep_nonneg {X} (delay : Q) (x : X) w :
  (0 <= delay)%Q -> (delay <= sleep_limit)%Q ->
  time_sleep delay x w =
    (Ok tt, x,
     mkWorld (now w + delay)%Q (invocations w) (sleeps w ++ [delay])
       (draws w) (random w)).
Proof.
  intros Hd Hl. unfold time_sleep.
  rewrite (sleep_overflows_in_limit delay Hd Hl).
  apply Qle_bool_iff in Hd. rewrite Hd. reflexivity.
Qed.

Lemma time_sleep_attempt_delay {X} s w0 a j (x : X) w :
  well_formed s -> random_in_unit_interval w0 ->
  time_sleep (attempt_delay s w0 a j) x w =
    (Ok tt, x,
     mkWorld (now w + attempt_delay s w0 a j)%Q (invocations w)
       (sleeps w ++ [attempt_delay s w0 a j]) (draws w) (random w)).
Proof.
  intros Hs Hr.
  destruct (attempt_delay_bounds s w0 a j (wf_base_delay s Hs)
              (wf_max_delay s Hs) (wf_backoff_factor s Hs) Hr) as [H0 Hm].
  apply time_sleep_nonneg; [exact H0|].
  eapply Qle_trans; [exact Hm|apply Hs].
Qed.

Lemma attempt_delay_shift s w w' a j :
  random w' = random w ->
  draws w' = (if jitter s then S (draws w) else draws w) ->
  attempt_delay s w a (S j) = attempt_delay s w' (S a) j.
Proof.
  intros Hr Hd. unfold attempt_delay, jitter_factor.
  replace (a + S j)%nat with (S a + j)%nat by lia.
  destruct (jitter s); [|reflexivity].
  rewrite Hr, Hd. replace (draws w + S j)%nat with (S (draws w) + j)%nat by lia.
  reflexivity.
Qed.

Lemma execute_loop_run_raises {X V} s (func : Operation V) :
  well_formed s -> always_raises func ->
  forall k a last (x : X) w,
    random_in_unit_interval w ->
    (a + k)%nat = Z.to_nat (max_attempts s) ->
    exists w' last',
      execute_loop s (run func) (seq a k) last x w =
        (Err (RetriesFailedError (max_attempts s) last'), x, w') /\
      invocations w' = (invocations w + k)%nat /\
      sleeps w' = sleeps w ++ map (attempt_delay s w a) (seq 0 (k - 1)) /\
      (k = 0%nat -> last' = last) /\
      ((0 < k)%nat -> exists d e,
          func (invocations w + k - 1)%nat = (d, Raises e) /\ last' = Some e).
Proof.
  intros Hs Hf. induction k as [|k IH]; intros a last x w Hr Hak.
  - simpl. exists w, last. repeat split.
    + lia.
    + rewrite app_nil_r. reflexivity.
    + lia.
  - cbn [seq execute_loop]. unfold run at 1, invoke.
    destruct (Hf (invocations w)) as [e He].
    destruct (func (invocations w)) as [d o] eqn:Hfw. simpl in He. subst o.
    set (w1 := mkWorld (now w + d)%Q (S (invocations w)) (sleeps w) (draws w)
                 (random w)).
    destruct k as [|k].
    + (* the final attempt: no delay *)
      destruct (Z.ltb_spec (Z.of_nat a) (max_attempts s - 1)) as [Hlt|_];
        [lia|].
      simpl. exists w1, (Some e). repeat split.
      * simpl. lia.
      * simpl. rewrite app_nil_r. reflexivity.
      * discriminate.
      * intros _. exists d, e. split; [|reflexivity].
        replace (invocations w + 1 - 1)%nat with (invocations w) by lia.
        exact Hfw.
    + destruct (Z.ltb_spec (Z.of_nat a) (max_attempts s - 1)) as [_|Hge];
        [|lia].
      rewrite _calculate_delay_eq by (apply (wf_pow s Hs); lia).
      assert (Hr1 : random_in_unit_interval w1) by exact Hr.
      set (w2 := if jitter s
                 then mkWorld (now w1) (invocations w1) (sleeps w1)
                        (S (draws w1)) (random w1)
                 else w1).
      assert (Hw2 : random w2 = random w /\ invocations w2 = S (invocations w)
                    /\ sleeps w2 = sleeps w
                    /\ draws w2 = (if jitter s then S (draws w) else draws w)).
      { unfold w2. destruct (jitter s); simpl; auto. }
      destruct Hw2 as (Hw2r & Hw2i & Hw2s & Hw2d).
      rewrite time_sleep_attempt_delay by assumption.
      set (w3 := mkWorld (now w2 + attempt_delay s w1 a 0)%Q (invocations w2)
                   (sleeps w2 ++ [attempt_delay s w1 a 0]) (draws w2)
                   (random w2)).
      assert (Hr3 : random_in_unit_interval w3).
      { intros i. unfold w3. simpl. rewrite Hw2r. apply Hr. }
      destruct (IH (S a) (Some e) x w3 Hr3) as (w' & last' & Hex & Hi & Hsl & _ & Hl);
        [lia|].
      exists w', last'. split; [exact Hex|]. split; [|split; [|split]].
      * rewrite Hi. unfold w3. simpl. rewrite Hw2i. lia.
      * rewrite Hsl.
        replace (S (S k) - 1)%nat with (S k) by lia.
        replace (S k - 1)%nat with k by lia.
        unfold w3. cbn [sleeps]. rewrite Hw2s.
        cbn [seq map]. rewrite <- seq_shift, map_map, <- app_assoc.
        cbn [app]. f_equal. f_equal.
        apply map_ext. intros j. symmetry.
        apply attempt_delay_shift; simpl; assumption.
      * discriminate.
      * intros _. destruct Hl as (d' & e' & Hfe & ->); [lia|].
        exists d', e'. split; [|reflexivity].
        rewrite <- Hfe. f_equal. unfold w3. simpl. rewrite Hw2i. lia.
Qed.

(** ** RetryStrategy: the only error the loop raises *)

Section ExecuteError.

Context {X V : Type} (s : RetryStrategy) (func : M X V).
Hypothesis Hs : well_formed s.
Hypothesis func_random :
  forall x w r x' w', func x w = (r, x', w') -> random w' = random w.

Lemma execute_loop_error :
  forall k a last x w res x' w',
    random_in_unit_interval w ->
    (a + k)%nat = Z.to_nat (max_attempts s) ->
    execute_loop s func (seq a k) last x w = (res, x', w') ->
    random w' = random w /\
    match res with
    | Ok _ => True
    | Err e =>
        exists last',
          e = RetriesFailedError (max_attempts s) last' /\
          (k = 0%nat -> last' = last) /\
          ((0 < k)%nat -> exists e_last x0 w0,
              last' = Some e_last /\ func x0 w0 = (Err e_last, x', w'))
    end.
Proof.
  induction k as [|k IH]; intros a last x w res x' w' Hr Hak.
  - simpl. intros [= <- <- <-]. split; [reflexivity|].
    exists last. repeat split. lia.
  - cbn [seq execute_loop].
    destruct (func x w) as [[r1 x1] w1] eqn:Hf.
    pose proof (func_random _ _ _ _ _ Hf) as Hw1.
    destruct r1 as [v|e].
    { intros [= <- <- <-]. split; [exact Hw1|exact I]. }
    assert (Hr1 : random_in_unit_interval w1).
    { intros i. rewrite Hw1. apply Hr. }
    destruct (Z.ltb_spec (Z.of_nat a) (max_attempts s - 1)) as [Hlt|Hge].
    + rewrite _calculate_delay_eq by (apply (wf_pow s Hs); exact Hlt).
      rewrite time_sleep_attempt_delay by assumption.
      intros Hex. apply IH in Hex.
      * destruct Hex as [Hw' Hres]. split.
        -- rewrite Hw'. simpl. destruct (jitter s); simpl; exact Hw1.
        -- destruct res as [v|e']; [exact I|].
           destruct Hres as (last' & -> & _ & Hlast).
           exists last'. split; [reflexivity|]. split; [discriminate|].
           intros _. apply Hlast. lia.
      * intros i. simpl. destruct (jitter s); simpl; apply Hr1.
      * lia.
    + assert (k = 0)%nat as -> by lia. simpl.
      intros [= <- <- <-]. split; [exact Hw1|].
      exists (Some e). split; [reflexivity|]. split; [discriminate|].
      intros _. exists e, x, w. split; [reflexivity|exact Hf].
Qed.

End ExecuteError.

Lemma call_random {V} (func : Operation V) b w r b' w' :
  call func b w = (r, b', w') -> random w' = random w.
Proof.
  unfold call. destruct (call_guard b w) as [[g b1] w1] eqn:Hg.
  apply call_guard_world in Hg. subst w1.
  destruct g as [u|e]; [|intros [= _ _ <-]; reflexivity].
  unfold invoke. destruct (func (invocations w)) as [d [v|e]];
    intros [= _ _ <-]; reflexivity.
Qed.

(** ** EnhancedErrorRecovery: policies *)

(** A policy with at most five attempts is checked by running the checks. *)
Lemma strategy_well_formed_small n b m f j :
  (1 <=? n) && (n <=? 5) = true ->
  Qle_bool 0 b = true -> Qle_bool 0 m = true -> Qle_bool 0 f = true ->
  Qle_bool float_overflow_bound (f ^ 3) = false ->
  Qle_bool 1 f = true ->
  Qle_bool m sleep_limit = true ->
  well_formed (mkRetry n b m f j).
Proof.
  intros Hn Hb Hm Hf Hp H1 Hl.
  apply andb_true_iff in Hn. destruct Hn as [Hn1 Hn5].
  apply Z.leb_le in Hn1. apply Z.leb_le in Hn5.
  apply Qle_bool_iff in Hb, Hm, Hf, H1, Hl.
  split; cbn [max_attempts base_delay max_delay backoff_factor];
    try assumption.
  intros attempt Hlt. unfold pow_in_range. cbn [backoff_factor].
  assert (Hp3 : (f ^ 3 < float_overflow_bound)%Q).
  { apply Qnot_le_lt. intros Hle. apply Qle_bool_iff in Hle. congruence. }
  assert (Hmono : forall k, (0 <= f ^ Z.of_nat k)%Q /\
                            (f ^ Z.of_nat k <= f ^ Z.of_nat (S k))%Q).
  { intros k. split; [apply Qpower_0_le; exact Hf|].
    rewrite Nat2Z.inj_succ. unfold Z.succ.
    assert (H0 : (0 <= f ^ Z.of_nat k)%Q) by (apply Qpower_0_le; exact Hf).
    assert (E : (f ^ (Z.of_nat k + 1) == f ^ Z.of_nat k * f)%Q)
      by (rewrite Qpower_plus' by lia; reflexivity).
    rewrite E.
    apply Qle_trans with (f ^ Z.of_nat k * 1)%Q;
      [rewrite Qmult_1_r; apply Qle_refl|].
    rewrite !(Qmult_comm (f ^ Z.of_nat k)).
    apply Qmult_le_compat_r; assumption. }
  rewrite Qabs_pos by apply Hmono.
  eapply Qle_lt_trans; [|exact Hp3].
  change 3 with (Z.of_nat 3).
  do 4 (destruct attempt as [|attempt];
        [repeat (first [apply Qle_refl
                       |eapply Qle_trans; [apply Hmono|]])|]).
  lia.
Qed.

Lemma strategy_catalog_well_formed nm : well_formed (strategy_catalog nm).
Proof.
  unfold strategy_catalog, RetryStrategy_default.
  destruct (String.eqb nm "api_calls");
    [|destruct (String.eqb nm "critical_operations")];
    apply strategy_well_formed_small; vm_compute; reflexivity.
Qed.

Lemma get_retry_strategy_catalog r nm :
  strategies_from_catalog r ->
  snd (get_retry_strategy r nm) = strategy_catalog nm /\
  strategies_from_catalog (fst (get_retry_strategy r nm)) /\
  circuit_breakers (fst (get_retry_strategy r nm)) = circuit_breakers r.
Proof.
  intros Hr. unfold get_retry_strategy.
  destruct (retry_strategies r !! nm) as [s0|] eqn:Hl; simpl.
  - split; [apply Hr, Hl|]. split; [exact Hr|reflexivity].
  - split; [reflexivity|]. split; [|reflexivity].
    intros k s1. simpl. rewrite lookup_insert.
    destruct (decide (nm = k)) as [->|Hne].
    + intros [= <-]. reflexivity.
    + apply Hr.
Qed.

Lemma get_circuit_breaker_strategies r nm cfg :
  retry_strategies (fst (get_circuit_breaker r nm cfg)) = retry_strategies r.
Proof.
  unfold get_circuit_breaker.
  destruct (circuit_breakers r !! nm); reflexivity.
Qed.

(** ** RetryStrategy and EnhancedErrorRecovery: exhausted retries *)

(** C4, counterexample.  Two policies with three attempts and no jitter, on
    an operation that always raises.  With [base_delay = -1] the first delay
    is negative and [time.sleep] raises [ValueError]; with [base_delay] and
    [max_delay] of [1e10] seconds the first delay does not fit the C clock
    and [time.sleep] raises [OverflowError].  Either error leaves [execute]
    after one invocation, and is not the "all attempts failed" error. *)
Lemma bad_delay_ends_retries :
  execute (mkRetry 3 (-1) 60 2 false) (run failing) tt (world_at 0 0) =
    (Err (OtherException "ValueError" "sleep length must be non-negative"),
     tt, world_at 0 1) /\
  execute (mkRetry 3 10000000000 10000000000 2 false) (run failing) tt
    (world_at 0 0) =
    (Err (OtherException "OverflowError"
            "timestamp too large to convert to C _PyTime_t"),
     tt, world_at 0 1) /\
  ~ every_policy_exhausts_retries.
Proof.
  split; [vm_compute; reflexivity|].
  split; [vm_compute; reflexivity|].
  intros H.
  assert (Hf : always_raises failing) by (intros k; eexists; reflexivity).
  destruct (H (mkRetry 3 (-1) 60 2 false) failing (world_at 0 0) Hf)
    as (e & w' & Hex & _).
  vm_compute in Hex. discriminate Hex.
Qed.

(** C4, amended.  With [random.random()] in [0, 1):
    - for a policy whose attempts can be counted and whose delays can be
      computed and slept (at least one attempt, no negative duration or
      factor, a power in range before every delay, [max_delay] at most
      [sleep_limit]), [execute] on an operation that raises at every
      invocation invokes it [max_attempts] times and raises the "all
      attempts failed" error, whose [original_exception] is what the last
      invocation raised;
    - whatever the operation does, an error that leaves [resilient_call],
      whose policies are the catalog's, is the "all attempts failed" error
      of the policy, wrapping the error of the attempt made last: no error
      of the operation and no rejection by the breaker reaches the caller
      as it is. *)
Theorem retries_exhausted {X V} s (func : Operation V) (x : X) w r :
  random_in_unit_interval w ->
  strategies_from_catalog r ->
  (well_formed s ->
   always_raises func ->
   exists w' d e,
     execute s (run func) x w =
       (Err (RetriesFailedError (max_attempts s) (Some e)), x, w') /\
     Z.of_nat (invocations w') = Z.of_nat (invocations w) + max_attempts s /\
     func (invocations w' - 1)%nat = (d, Raises e)) /\
  (forall (op : Operation V) service_name retry_strategy circuit_config
          res r' w',
     resilient_call op service_name retry_strategy circuit_config r w =
       (res, r', w') ->
     match res with
     | Ok _ => True
     | Err e =>
         exists e_last b0 w0 b',
           e = RetriesFailedError
                 (max_attempts (strategy_catalog retry_strategy))
                 (Some e_last) /\
           call op b0 w0 = (Err e_last, b', w') /\
           circuit_breakers r' !! service_name = Some b'
     end).
Proof.
  intros Hr Hcat. split.
  - intros Hs Hf.
    destruct (execute_loop_run_raises s func Hs Hf
                (Z.to_nat (max_attempts s)) 0%nat None x w Hr eq_refl)
      as (w' & last' & Hex & Hi & _ & _ & Hl).
    pose proof (wf_attempts s Hs) as Hn.
    destruct Hl as (d & e & Hfe & ->); [lia|].
    exists w', d, e. split; [exact Hex|]. split; [lia|].
    rewrite Hi. exact Hfe.
  - intros op service_name retry_strategy circuit_config res r' w'.
    unfold resilient_call.
    pose proof (get_circuit_breaker_strategies r service_name circuit_config)
      as Hrs.
    destruct (get_circuit_breaker r service_name circuit_config)
      as [r1 circuit_breaker].
    simpl in Hrs.
    assert (Hcat1 : strategies_from_catalog r1).
    { intros k s0. rewrite Hrs. apply Hcat. }
    destruct (get_retry_strategy_catalog r1 retry_strategy Hcat1)
      as (Hretry & _ & _).
    destruct (get_retry_strategy r1 retry_strategy) as [r2 retry].
    simpl in Hretry. subst retry.
    set (sc := strategy_catalog retry_strategy).
    pose proof (strategy_catalog_well_formed retry_strategy) as Hsc.
    fold sc in Hsc.
    destruct (execute sc (call op) circuit_breaker w) as [[res0 cb'] w1]
      eqn:Hex.
    unfold execute in Hex.
    apply (execute_loop_error sc (call op) Hsc (call_random op)) in Hex;
      [|exact Hr|reflexivity].
    destruct Hex as [_ Hres].
    destruct res0 as [v|e]; intros [= <- <- <-]; [exact I|].
    destruct Hres as (last' & -> & _ & Hl).
    pose proof (wf_attempts sc Hsc) as Hn.
    destruct Hl as (e_last & b0 & w0 & -> & Hcall); [lia|].
    exists e_last, b0, w0, cb'. split; [reflexivity|]. split; [exact Hcall|].
    simpl. apply lookup_insert_eq.
Qed.

(** ** RetryStrategy: the delays between attempts *)

(** C8, counterexample.  The policy with 1026 attempts, [base_delay = 1],
    [max_delay = 60], [backoff_factor = 2.0] and no jitter has no delay for
    attempt 1024: [2.0 ** 1024] is not a float and the power raises
    [OverflowError].  On an operation that always raises, [execute] sleeps
    after the attempts 0 to 1023 and leaves with that error after the 1025th
    invocation.  The default policy has no delay for attempt 1024 either. *)
Lemma delay_overflows_at_attempt_1024 :
  _calculate_delay (mkRetry 1026 1 60 2 false) 1024 (world_at 0 0) =
    (Err (OtherException "OverflowError"
            "(34, 'Numerical result out of range')"), world_at 0 0) /\
  fst (_calculate_delay RetryStrategy_default 1024 (world_at 0 0)) =
    Err (OtherException "OverflowError"
           "(34, 'Numerical result out of range')") /\
  (let out := execute (mkRetry 1026 1 60 2 false) (run failing) tt
                (world_at 0 0) in
   fst (fst out) =
     Err (OtherException "OverflowError"
            "(34, 'Numerical result out of range')") /\
   invocations (snd out) = 1025%nat /\
   length (sleeps (snd out)) = 1024%nat) /\
  ~ every_attempt_has_delay.
Proof.
  split; [vm_compute; reflexivity|].
  split; [vm_compute; reflexivity|].
  split; [vm_compute; repeat split|].
  intros H.
  specialize (H (mkRetry 1026 1 60 2 false) 1024%nat (world_at 0 0) eq_refl).
  vm_compute in H. discriminate H.
Qed.

(** C8, amended.  With floats read as exact rationals and [random.random()]
    in [0, 1):
    - when [backoff_factor ** attempt] is a float, the delay computed for the
      attempt is [min(base_delay * backoff_factor ^ attempt, max_delay)],
      multiplied, when jitter is on, by a factor drawn for it; when the power
      is out of range there is no delay: computing it raises
      [OverflowError] and draws nothing;
    - every such factor lies between 1/2 and 1 (that the draw is uniform is
      a fact about [random.random()], not about this code);
    - for a policy whose delays can be computed and slept, [execute] on an
      operation that always raises sleeps exactly these delays for the
      attempts [0 .. max_attempts - 2], in this order, and does not sleep
      after the final attempt;
    - with [max_attempts = 3], [base_delay = 1], [backoff_factor = 2] and no
      jitter the delays slept are 1 and 2. *)
Theorem backoff_delays {X V} s (func : Operation V) (x : X) w attempt :
  always_raises func ->
  random_in_unit_interval w ->
  (pow_in_range s attempt ->
   fst (_calculate_delay s attempt w) =
     Ok (if jitter s
         then (spec_delay s attempt * jitter_factor w 0)%Q
         else spec_delay s attempt)) /\
  (~ pow_in_range s attempt ->
   _calculate_delay s attempt w =
     (Err (OtherException "OverflowError"
             "(34, 'Numerical result out of range')"), w)) /\
  (forall k, ((1 # 2) <= jitter_factor w k)%Q /\ (jitter_factor w k <= 1)%Q) /\
  (well_formed s ->
   exists res w',
     execute s (run func) x w = (res, x, w') /\
     sleeps w' =
       sleeps w ++
       map (fun k => if jitter s
                     then (spec_delay s k * jitter_factor w k)%Q
                     else spec_delay s k)
           (seq 0 (Z.to_nat (max_attempts s) - 1))) /\
  (exists res w',
     execute (mkRetry 3 1 60 2 false) (run func) x w = (res, x, w') /\
     sleeps w' = sleeps w ++ [1%Q; 2%Q]).
Proof.
  intros Hf Hr. split; [|split; [|split; [|split]]].
  - intros Hp. rewrite _calculate_delay_eq by exact Hp.
    unfold attempt_delay. simpl. rewrite Nat.add_0_r.
    destruct (jitter s); reflexivity.
  - apply _calculate_delay_overflow.
  - intros k. destruct (jitter_factor_bounds w k Hr). split; lra.
  - intros Hs.
    destruct (execute_loop_run_raises s func Hs Hf
                (Z.to_nat (max_attempts s)) 0%nat None x w Hr eq_refl)
      as (w' & last' & Hex & _ & Hsl & _).
    eexists _, w'. split; [exact Hex|exact Hsl].
  - assert (Hs3 : well_formed (mkRetry 3 1 60 2 false)).
    { apply (strategy_well_formed_small 3 1 60 2 false); vm_compute;
        first [discriminate|reflexivity]. }
    destruct (execute_loop_run_raises _ func Hs3 Hf 3%nat 0%nat None x w Hr
                eq_refl)
      as (w' & last' & Hex & _ & Hsl & _).
    eexists _, w'. split; [exact Hex|exact Hsl].
Qed.

(** ** CircuitBreaker: what counts as a timeout *)

Lemma _on_success_totals b d :
  total_failures (_on_success b d) = total_failures b /\
  total_timeouts (_on_success b d) = total_timeouts b.
Proof.
  unfold _on_success. destruct (state b); simpl; auto.
  destruct (_ <=? _); simpl; auto.
Qed.

Lemma call_guard_totals b w r b1 w1 :
  call_guard b w = (r, b1, w1) ->
  total_failures b1 = total_failures b /\
  total_timeouts b1 = total_timeouts b.
Proof.
  unfold call_guard. simpl.
  destruct (state b); try (intros [= _ <- _]; auto).
  destruct (negb _); intros [= _ <- _]; auto.
Qed.

Lemma call_set_timeout {V} (func : Operation V) t b w r b' w' :
  call func b w = (r, b', w') ->
  call func (set_timeout t b) w = (r, set_timeout t b', w').
Proof.
  unfold call, call_guard, _should_attempt_reset, invoke. simpl.
  destruct (state b) eqn:Hs.
  - destruct (func (invocations w)) as [d [v|e]]; intros [= <- <- <-].
    + unfold _on_success, set_timeout. simpl. try rewrite Hs. reflexivity.
    + reflexivity.
  - destruct (negb _); [intros [= <- <- <-]; reflexivity|].
    destruct (func (invocations w)) as [d [v|e]]; intros [= <- <- <-].
    + unfold _on_success, set_timeout. simpl.
      destruct (_ <=? _); reflexivity.
    + reflexivity.
  - destruct (func (invocations w)) as [d [v|e]]; intros [= <- <- <-].
    + unfold _on_success, set_timeout. simpl. try rewrite Hs. simpl.
      destruct (_ <=? _); reflexivity.
    + reflexivity.
Qed.

(** C7, counterexample.  Under the default configuration ([timeout = 30])
    an operation that returns after 31 s: the call returns its value, and
    neither [total_failures] nor [total_timeouts] moves. *)
Lemma slow_call_succeeds :
  call slow (CircuitBreaker_init CircuitBreakerConfig_default "fpl_api")
       (world_at 0 0) =
    (Ok 7,
     mkBreaker CircuitBreakerConfig_default "fpl_api" CLOSED 0 0 None 1 0 0,
     mkWorld 31 1 [] 0 (fun _ => 0%Q)) /\
  ~ slow_call_is_timeout.
Proof.
  split; [reflexivity|].
  intros H.
  destruct (H slow (CircuitBreaker_init CircuitBreakerConfig_default "fpl_api")
              (world_at 0 0) 31%Q (Returns 7) eq_refl eq_refl eq_refl)
    as (e & b' & w' & Hcall & _).
  discriminate Hcall.
Qed.

(** C7, amended.  For a call the guard lets through:
    - the call ends as the operation does, after the time the operation
      takes, however long that is;
    - [total_failures] grows by one exactly when the operation raises;
    - [total_timeouts] grows by one exactly when it raises a [TimeoutError]
      or a [ConnectionError];
    - [timeout] is not consulted: under any other value of it the call does
      the same. *)
Theorem timeouts_by_exception_class {V} (func : Operation V) b w b1 d o :
  call_guard b w = (Ok tt, b1, w) ->
  func (invocations w) = (d, o) ->
  exists b' w',
    call func b w =
      (match o with Returns v => Ok v | Raises e => Err e end, b', w') /\
    now w' = (now w + d)%Q /\
    total_failures b' =
      total_failures b + (match o with Returns _ => 0 | Raises _ => 1 end) /\
    total_timeouts b' =
      total_timeouts b +
      (match o with
       | Returns _ => 0
       | Raises e => if is_timeout_or_connection e then 1 else 0
       end) /\
    forall t,
      call func (set_timeout t b) w =
        (match o with Returns v => Ok v | Raises e => Err e end,
         set_timeout t b', w').
Proof.
  intros Hg Hf.
  destruct (call func b w) as [[r b'] w'] eqn:Hcall.
  pose proof (fun t => call_set_timeout func t _ _ _ _ _ Hcall) as Hset.
  revert Hcall. unfold call. rewrite Hg. unfold invoke. rewrite Hf.
  destruct (call_guard_totals _ _ _ _ _ Hg) as [Hgf Hgt].
  destruct o as [v|e]; intros [= <- <- <-].
  - destruct (_on_success_totals b1 (now w + d - now w)%Q) as [Hsf Hst].
    eexists _, _. split; [reflexivity|]. split; [reflexivity|].
    split; [simpl in *; lia|]. split; [simpl in *; lia|]. exact Hset.
  - eexists _, _. split; [reflexivity|]. split; [reflexivity|].
    split; [simpl; lia|]. split; [|exact Hset].
    simpl. rewrite Hgt. destruct (is_timeout_or_connection e); lia.
Qed.

(** ** Session cache *)

Lemma append_eq_self (k s : string) : k +:+ s = k -> s = "".
Proof.
  induction k as [|a k IH]; [intros H; exact H|].
  intros [= H]. apply IH, H.
Qed.

Lemma timestamp_key_ne key : timestamp_key key <> key.
Proof.
  unfold timestamp_key. intros H. apply append_eq_self in H. discriminate H.
Qed.


Lemma cached_call_stale {V} ttl key (func : Operation V) ss w :
  stale ss key ttl (now w) ->
  cached_call ttl key func ss w =
    match invoke func w with
    | (Raises e, w1) => (Err e, ss, w1)
    | (Returns result, w1) =>
        (Ok (SResult result),
         <[timestamp_key key := SFloat (now w1)]>
           (<[key := SResult result]> ss),
         w1)
    end.
Proof.
  intros [Hk|(cache_time & Ht & Hle)]; unfold cached_call.
  - rewrite Hk. reflexivity.
  - destruct (ss !! key); [|reflexivity].
    rewrite Ht. apply Qle_bool_iff in Hle. rewrite Hle. reflexivity.
Qed.



(** ** The decorator [resilient_api_call] *)

Lemma resilient_call_fresh {V} (func : Operation V) service_name
  retry_strategy circuit_config w :
  exists res cb' w' r',
    execute (strategy_catalog retry_strategy) (call func)
      (CircuitBreaker_init
         (default CircuitBreakerConfig_default circuit_config) service_name)
      w = (res, cb', w') /\
    resilient_call func service_name retry_strategy circuit_config
      EnhancedErrorRecovery_init w = (res, r', w').
Proof.
  unfold resilient_call.
  assert (Hcb : get_circuit_breaker EnhancedErrorRecovery_init service_name
                  circuit_config =
                (mkRecovery
                   (<[service_name :=
                        CircuitBreaker_init
                          (default CircuitBreakerConfig_default circuit_config)
                          service_name]> ∅) ∅ ∅ [],
                 CircuitBreaker_init
                   (default CircuitBreakerConfig_default circuit_config)
                   service_name)).
  { unfold get_circuit_breaker, EnhancedErrorRecovery_init. simpl.
    rewrite lookup_empty. reflexivity. }
  rewrite Hcb. unfold get_retry_strategy. simpl. rewrite lookup_empty.
  destruct (execute _ _ _ w) as [[res cb'] w'].
  destruct res as [v|e]; eexists _, _, _, _; split; reflexivity.
Qed.

(** C10.  Each invocation of a function wrapped by [resilient_api_call]
    - builds a registry with no breaker, no policy, no error count and no
      error record, in which the breaker for the service is made anew:
      closed, all counters 0, no failure time;
    - gives what the retry loop of the catalog's policy gives on this new
      breaker, and leaves the module's registry as it was;
    - so an invocation that follows another starts from the same new breaker:
      nothing of the first one's registry is there. *)
Theorem wrapper_uses_fresh_registry {A V} service_name retry_strategy
  (func : A -> Operation V) circuit_config args error_recovery w :
  let new_breaker :=
    CircuitBreaker_init
      (default CircuitBreakerConfig_default circuit_config) service_name in
  (circuit_breakers EnhancedErrorRecovery_init = ∅ /\
   retry_strategies EnhancedErrorRecovery_init = ∅ /\
   error_counts EnhancedErrorRecovery_init = ∅ /\
   recent_errors EnhancedErrorRecovery_init = []) /\
  snd (get_circuit_breaker EnhancedErrorRecovery_init service_name
         circuit_config) = new_breaker /\
  (state new_breaker = CLOSED /\ failure_count new_breaker = 0 /\
   success_count new_breaker = 0 /\ last_failure_time new_breaker = None /\
   total_requests new_breaker = 0 /\ total_failures new_breaker = 0 /\
   total_timeouts new_breaker = 0) /\
  exists res cb' w',
    execute (strategy_catalog retry_strategy) (call (func args))
      new_breaker w = (res, cb', w') /\
    resilient_api_call service_name retry_strategy func circuit_config args
      error_recovery w = (res, error_recovery, w') /\
    forall args2, exists res2 cb2 w2,
      execute (strategy_catalog retry_strategy) (call (func args2))
        new_breaker w' = (res2, cb2, w2) /\
      resilient_api_call service_name retry_strategy func circuit_config args2
        error_recovery w' = (res2, error_recovery, w2).
Proof.
  intros new_breaker.
  split; [repeat split|]. split; [reflexivity|]. split; [repeat split|].
  destruct (resilient_call_fresh (func args) service_name retry_strategy
              circuit_config w) as (res & cb' & w' & r' & Hex & Hrc).
  exists res, cb', w'. split; [exact Hex|].
  unfold resilient_api_call. split; [rewrite Hrc; reflexivity|].
  intros args2.
  destruct (resilient_call_fresh (func args2) service_name retry_strategy
              circuit_config w') as (res2 & cb2 & w2 & r2 & Hex2 & Hrc2).
  exists res2, cb2, w2. split; [exact Hex2|]. rewrite Hrc2. reflexivity.
Qed.

(** ** Runs on the sample data *)

Lemma failing_always_raises : always_raises failing.
Proof. intros k. eexists. reflexivity. Qed.

Lemma world_at_random t k : random_in_unit_interval (world_at t k).
Proof. intros i. simpl. split; [apply Qle_refl|reflexivity]. Qed.

Lemma init_strategies_from_catalog :
  strategies_from_catalog EnhancedErrorRecovery_init.
Proof. intros k s. simpl. rewrite lookup_empty. discriminate. Qed.

(** With a threshold of 2 and the policy "api_calls" (3 attempts), an
    operation that always raises is invoked twice; the third attempt is
    rejected by the open breaker, and the caller gets the "all attempts
    failed" error that wraps the rejection. *)
Example final_attempt_rejected :
  let out := resilient_call failing "fpl_api" "api_calls"
               (Some (mkConfig 2 60 2 30)) EnhancedErrorRecovery_init
               (world_at 0 0) in
  fst (fst out) =
    Err (RetriesFailedError 3 (Some (CircuitOpenError "fpl_api"))) /\
  invocations (snd out) = 2%nat /\
  state <$> (circuit_breakers (snd (fst out)) !! "fpl_api") = Some OPEN /\
  total_requests <$> (circuit_breakers (snd (fst out)) !! "fpl_api") = Some 3.
Proof. vm_compute. repeat split. Qed.

(** Two calls in a row under the policy "critical_operations" (5 attempts,
    default threshold 5) with an operation that always raises.  Through one
    registry the second call is rejected five times and the operation is
    invoked 5 times in all; through the decorator, each call has a breaker of
    its own and the operation is invoked 10 times. *)
Example decorated_calls_share_nothing :
  let shared1 := resilient_call failing "fpl_api" "critical_operations" None
                   EnhancedErrorRecovery_init (world_at 0 0) in
  let shared2 := resilient_call failing "fpl_api" "critical_operations" None
                   (snd (fst shared1)) (snd shared1) in
  let wrapped1 := resilient_api_call "fpl_api" "critical_operations"
                    (fun _ : unit => failing) None tt
                    EnhancedErrorRecovery_init (world_at 0 0) in
  let wrapped2 := resilient_api_call "fpl_api" "critical_operations"
                    (fun _ : unit => failing) None tt
                    (snd (fst wrapped1)) (snd wrapped1) in
  invocations (snd shared2) = 5%nat /\
  invocations (snd wrapped2) = 10%nat /\
  snd (fst wrapped2) = EnhancedErrorRecovery_init.
Proof. vm_compute. repeat split. Qed.

(** ** The theorems at the sample data *)

Lemma call_counter_resets_witness :
  call flaky sample_reopened (world_at 300 3) =
    (Ok 7,
     mkBreaker sample_config "fpl_api" CLOSED 0 0 (Some 200%Q) 4 2 2,
     world_at 300 4) /\
  (forall b1, call_guard sample_reopened (world_at 300 3) =
                (Ok tt, b1, world_at 300 3) ->
     state b1 = HALF_OPEN /\ success_count b1 = 1 /\ failure_count b1 = 2).
Proof.
  assert (Hcall : call flaky sample_reopened (world_at 300 3) =
            (Ok 7,
             mkBreaker sample_config "fpl_api" CLOSED 0 0 (Some 200%Q) 4 2 2,
             world_at 300 4)) by reflexivity.
  split; [exact Hcall|].
  intros b1 Hg.
  exact (proj1 (call_counter_resets flaky sample_reopened (world_at 300 3)
                  _ _ _ Hcall) b1 eq_refl Hg).
Defined.

Lemma half_open_failure_opens_witness :
  reachable sample_config "fpl_api" sample_half_open /\
  state sample_half_open = HALF_OPEN /\
  flaky (invocations (world_at 200 2)) =
    (0%Q, Raises (BuiltinTimeoutError "timed out")) /\
  exists b' w',
    call flaky sample_half_open (world_at 200 2) =
      (Err (BuiltinTimeoutError "timed out"), b', w') /\
    state b' = OPEN.
Proof.
  split; [apply sample_half_open_reachable|].
  split; [reflexivity|]. split; [reflexivity|].
  destruct (half_open_failure_opens sample_config "fpl_api" sample_half_open
              flaky (world_at 200 2) 0%Q (BuiltinTimeoutError "timed out")
              sample_half_open_reachable eq_refl eq_refl)
    as [_ (b' & w' & Hcall & Hst & _)].
  exists b', w'. split; [exact Hcall|exact Hst].
Defined.


Lemma call_open_late_probes_witness :
  state sample_open = OPEN /\
  last_failure_time sample_open = Some 0%Q /\
  (inject_Z (recovery_timeout (config sample_open)) <= now (world_at 100 1) - 0)%Q /\
  exists b1,
    call_guard sample_open (world_at 100 1) = (Ok tt, b1, world_at 100 1) /\
    state b1 = HALF_OPEN /\
    invocations (snd (call flaky sample_open (world_at 100 1))) = 2%nat.
Proof.
  split; [reflexivity|]. split; [reflexivity|].
  assert (Hle : (inject_Z (recovery_timeout (config sample_open))
                 <= now (world_at 100 1) - 0)%Q).
  { unfold Qle. simpl. lia. }
  split; [exact Hle|].
  destruct (call_open_late_probes flaky sample_open (world_at 100 1) 0%Q
              eq_refl eq_refl Hle) as (b1 & Hg & Hs & Hi & _).
  exists b1. split; [exact Hg|]. split; [exact Hs|exact Hi].
Defined.

Lemma threshold_failures_open_witness :
  1 <= failure_threshold CircuitBreakerConfig_default /\
  always_raises failing /\
  state (fst (calls 5 failing
                (CircuitBreaker_init CircuitBreakerConfig_default "fpl_api")
                (world_at 0 0))) = OPEN /\
  state (fst (calls 4 failing
                (CircuitBreaker_init CircuitBreakerConfig_default "fpl_api")
                (world_at 0 0))) = CLOSED.
Proof.
  assert (H1 : 1 <= failure_threshold CircuitBreakerConfig_default)
    by (simpl; lia).
  split; [exact H1|]. split; [exact failing_always_raises|].
  destruct (threshold_failures_open failing
              (CircuitBreaker_init CircuitBreakerConfig_default "fpl_api")
              (world_at 0 0) H1 eq_refl eq_refl failing_always_raises)
    as [Hopen Hclosed].
  split; [exact Hopen|]. apply (Hclosed 4%nat). simpl. lia.
Defined.

Lemma retries_exhausted_witness :
  well_formed (strategy_catalog "api_calls") /\
  always_raises failing /\
  random_in_unit_interval (world_at 0 0) /\
  strategies_from_catalog EnhancedErrorRecovery_init /\
  exists w',
    execute (strategy_catalog "api_calls") (run failing) tt (world_at 0 0) =
      (Err (RetriesFailedError 3 (Some (BuiltinTimeoutError "timed out"))),
       tt, w') /\
    invocations w' = 3%nat.
Proof.
  split; [apply strategy_catalog_well_formed|].
  split; [exact failing_always_raises|].
  split; [apply world_at_random|].
  split; [exact init_strategies_from_catalog|].
  destruct (retries_exhausted (V:=Z) (strategy_catalog "api_calls") failing tt
              (world_at 0 0) EnhancedErrorRecovery_init
              (world_at_random 0 0) init_strategies_from_catalog)
    as [Hexhaust _].
  destruct (Hexhaust (strategy_catalog_well_formed "api_calls")
              failing_always_raises)
    as (w' & d & e & Hex & Hi & Hf).
  exists w'. injection Hf as _ <-. split; [exact Hex|].
  simpl in Hi. lia.
Defined.


Lemma timeouts_by_exception_class_witness :
  call_guard (CircuitBreaker_init CircuitBreakerConfig_default "fpl_api")
    (world_at 0 0) =
    (Ok tt,
     mkBreaker CircuitBreakerConfig_default "fpl_api" CLOSED 0 0 None 1 0 0,
     world_at 0 0) /\
  slow (invocations (world_at 0 0)) = (31%Q, Returns 7) /\
  exists b' w',
    call slow (CircuitBreaker_init CircuitBreakerConfig_default "fpl_api")
      (world_at 0 0) = (Ok 7, b', w') /\
    total_failures b' = 0 /\ total_timeouts b' = 0.
Proof.
  split; [reflexivity|]. split; [reflexivity|].
  destruct (timeouts_by_exception_class slow
              (CircuitBreaker_init CircuitBreakerConfig_default "fpl_api")
              (world_at 0 0) _ 31%Q (Returns 7) eq_refl eq_refl)
    as (b' & w' & Hcall & _ & Hf & Ht & _).
  exists b', w'. split; [exact Hcall|]. split; [exact Hf|exact Ht].
Defined.

Lemma backoff_delays_witness :
  always_raises failing /\
  random_in_unit_interval (world_at 0 0) /\
  well_formed (strategy_catalog "api_calls") /\
  (exists res w',
     execute (strategy_catalog "api_calls") (run failing) tt (world_at 0 0) =
       (res, tt, w') /\
     length (sleeps w') = 2%nat) /\
  exists res w',
    execute (mkRetry 3 1 60 2 false) (run failing) tt (world_at 0 0) =
      (res, tt, w') /\
    sleeps w' = [1%Q; 2%Q].
Proof.
  split; [exact failing_always_raises|].
  split; [apply world_at_random|].
  split; [apply strategy_catalog_well_formed|].
  destruct (backoff_delays (V:=Z) (strategy_catalog "api_calls") failing tt
              (world_at 0 0) 0%nat
              failing_always_raises (world_at_random 0 0))
    as (_ & _ & _ & Hsleeps & res & w' & Hex & Hsl).
  split.
  - destruct (Hsleeps (strategy_catalog_well_formed "api_calls"))
      as (res1 & w1 & Hex1 & Hsl1).
    exists res1, w1. split; [exact Hex1|]. rewrite Hsl1. reflexivity.
  - exists res, w'. split; [exact Hex|exact Hsl].
Defined.

(* ================================================================== *)
(** * Further properties *)

(** ** CircuitBreaker: what holds of every reachable breaker *)

Ltac solve_invariant Hl :=
  split; unfold totals_ordered; simpl;
  try match goal with
      | |- context [is_timeout_or_connection ?e] =>
          destruct (is_timeout_or_connection e)
      end;
  first
    [ lia
    | assumption
    | intros [?|?]; [congruence|lia]
    | intros _; eexists; reflexivity
    | intros _; apply Hl; left; discriminate
    | intros; discriminate
    | intros; lia
    | match goal with
      | |- context [?x <=? ?y] => destruct (Z.leb_spec x y)
      end; intros; first [discriminate|lia] ].

Lemma call_breaker_invariant {V} (func : Operation V) b w r b' w' :
  breaker_invariant b -> call func b w = (r, b', w') -> breaker_invariant b'.
Proof.
  intros [[Ht1 [Ht2 Ht3]] [Hf1 Hf2] [Hs1 Hs2] Hl Hc].
  unfold call, call_guard, invoke, _should_attempt_reset. simpl.
  destruct b as [cfg nm st fc sc lft treq tfail tto]. simpl in *.
  destruct st.
  - destruct (func (invocations w)) as [d [v|e]]; intros [= <- <- <-].
    + unfold _on_success. simpl. solve_invariant Hl.
    + unfold _on_failure.
      destruct (is_timeout_or_connection e); simpl; solve_invariant Hl.
  - destruct (negb _).
    + intros [= <- <- <-]. solve_invariant Hl.
    + destruct (func (invocations w)) as [d [v|e]]; intros [= <- <- <-].
      * unfold _on_success. simpl.
        destruct (Z.leb_spec (success_threshold cfg) (sc + 1));
          solve_invariant Hl.
      * unfold _on_failure.
      destruct (is_timeout_or_connection e); simpl; solve_invariant Hl.
  - destruct (func (invocations w)) as [d [v|e]]; intros [= <- <- <-].
    + unfold _on_success. simpl.
      destruct (Z.leb_spec (success_threshold cfg) (sc + 1));
        solve_invariant Hl.
    + unfold _on_failure.
      destruct (is_timeout_or_connection e); simpl; solve_invariant Hl.
Qed.

Lemma reachable_breaker_invariant cfg nm b :
  reachable cfg nm b -> breaker_invariant b.
Proof.
  induction 1 as [|V func b w r b' w' _ IH Hcall].
  - split; unfold totals_ordered; simpl; try lia.
    intros [H|H]; [congruence|lia].
  - eapply call_breaker_invariant; eauto.
Qed.

(** X1.  In every breaker built by the constructor and driven by [call], the
    totals are ordered, [0 <= total_timeouts <= total_failures <=
    total_requests], and the running counts are not negative, with
    [failure_count] at most [total_failures]. *)
Theorem reachable_counters_ordered cfg nm b :
  reachable cfg nm b ->
  0 <= total_timeouts b <= total_failures b /\
  total_failures b <= total_requests b /\
  0 <= failure_count b <= total_failures b /\
  0 <= success_count b.
Proof.
  intros Hr. destruct (reachable_breaker_invariant _ _ _ Hr)
    as [[Ht1 [Ht2 Ht3]] Hf [Hs _] _ _].
  repeat split; try lia.
Qed.

Lemma counters_ordered_witness :
  reachable sample_config "fpl_api" sample_reopened /\
  total_timeouts sample_reopened <= total_failures sample_reopened /\
  total_failures sample_reopened <= total_requests sample_reopened.
Proof.
  split; [apply sample_reopened_reachable|].
  destruct (reachable_counters_ordered sample_config "fpl_api" sample_reopened
              sample_reopened_reachable) as ([_ H1] & H2 & _).
  split; [exact H1|exact H2].
Defined.

(** X2.  The success rate that [metrics] reports for such a breaker,
    [1 - total_failures / max(1, total_requests)], lies between 0 and 1. *)
Theorem metrics_success_rate_bounds cfg nm b :
  reachable cfg nm b ->
  (0 <= m_success_rate (metrics b))%Q /\ (m_success_rate (metrics b) <= 1)%Q.
Proof.
  intros Hr. destruct (reachable_breaker_invariant _ _ _ Hr)
    as [[Ht1 [Ht2 Ht3]] _ _ _ _].
  unfold metrics. simpl.
  set (f := total_failures b) in *. set (m := Z.max 1 (total_requests b)).
  assert (Hm : (0 < inject_Z m)%Q).
  { replace 0%Q with (inject_Z 0) by reflexivity. rewrite <- Zlt_Qlt.
    unfold m. lia. }
  assert (Hlo : (0 <= inject_Z f / inject_Z m)%Q).
  { apply Qle_shift_div_l; [exact Hm|]. rewrite Qmult_0_l.
    replace 0%Q with (inject_Z 0) by reflexivity. rewrite <- Zle_Qle. lia. }
  assert (Hhi : (inject_Z f / inject_Z m <= 1)%Q).
  { apply Qle_shift_div_r; [exact Hm|]. rewrite Qmult_1_l.
    rewrite <- Zle_Qle. unfold m. lia. }
  split; lra.
Qed.

Lemma metrics_success_rate_witness :
  reachable sample_config "fpl_api" sample_reopened /\
  (m_success_rate (metrics sample_reopened) <= 1)%Q.
Proof.
  split; [apply sample_reopened_reachable|].
  exact (proj2 (metrics_success_rate_bounds sample_config "fpl_api"
                  sample_reopened sample_reopened_reachable)).
Defined.

(** X3.  With a threshold of at least one, a breaker built by the
    constructor and driven by [call] is closed exactly when its
    [failure_count] is below [failure_threshold]. *)
Theorem closed_iff_below_threshold cfg nm b :
  1 <= failure_threshold cfg ->
  reachable cfg nm b ->
  (state b = CLOSED <-> failure_count b < failure_threshold cfg).
Proof.
  intros Ht Hr.
  destruct (reachable_config _ _ _ Hr) as [Hcfg _].
  pose proof (reachable_tripped _ _ _ Hr) as Htr.
  destruct (reachable_breaker_invariant _ _ _ Hr) as [_ _ _ _ Hc].
  rewrite Hcfg in *. unfold tripped in Htr. rewrite Hcfg in Htr.
  split.
  - intros Hs. apply Hc; assumption.
  - intros Hlt. destruct (state b) eqn:Hs; [reflexivity| |];
      (assert (failure_threshold cfg <= failure_count b)
         by (apply Htr; discriminate); lia).
Qed.

Lemma closed_iff_below_threshold_witness :
  1 <= failure_threshold sample_config /\
  reachable sample_config "fpl_api" sample_half_open /\
  (state sample_half_open = CLOSED <->
   failure_count sample_half_open < failure_threshold sample_config).
Proof.
  assert (H1 : 1 <= failure_threshold sample_config) by (simpl; lia).
  split; [exact H1|]. split; [apply sample_half_open_reachable|].
  exact (closed_iff_below_threshold sample_config "fpl_api" sample_half_open
           H1 sample_half_open_reachable).
Defined.



(** ** CircuitBreaker: runs of calls *)

Lemma call_half_open_returns {V} (func : Operation V) b w :
  always_returns func ->
  state b = HALF_OPEN ->
  exists r b' w',
    call func b w = (r, b', w') /\
    config b' = config b /\
    (if success_threshold (config b) <=? success_count b + 1
     then state b' = CLOSED /\ failure_count b' = 0 /\ success_count b' = 0
     else state b' = HALF_OPEN /\ success_count b' = success_count b + 1).
Proof.
  intros Hf Hs. unfold call. rewrite call_guard_not_open by congruence.
  unfold invoke. destruct (Hf (invocations w)) as [v Hv].
  destruct (func (invocations w)) as [d o]. simpl in Hv. subst o.
  eexists _, _, _. split; [reflexivity|].
  unfold _on_success. simpl. rewrite Hs.
  destruct (_ <=? _); simpl; auto.
Qed.

(** X5.  A half-open breaker called with an operation that always returns:
    it stays half-open while [success_count] is below [success_threshold],
    and the call that brings [success_count] to the threshold closes it with
    [failure_count = 0] and [success_count = 0]. *)
Theorem half_open_successes_close {V} (func : Operation V) n : forall b w,
  always_returns func ->
  state b = HALF_OPEN ->
  (0 < n)%nat ->
  success_count b + Z.of_nat n = success_threshold (config b) ->
  (let b' := fst (calls n func b w) in
   state b' = CLOSED /\ failure_count b' = 0 /\ success_count b' = 0) /\
  forall k, (k < n)%nat ->
    state (fst (calls k func b w)) = HALF_OPEN /\
    success_count (fst (calls k func b w)) = success_count b + Z.of_nat k.
Proof.
  induction n as [|n IH]; intros b w Hf Hs Hpos Heq; [lia|].
  destruct (call_half_open_returns func b w Hf Hs)
    as (r & b1 & w1 & Hcall & Hc & Hstep).
  destruct n as [|n].
  - split.
    + cbn [calls]. rewrite Hcall. simpl.
      destruct (Z.leb_spec (success_threshold (config b)) (success_count b + 1));
        [exact Hstep|lia].
    + intros k Hk. assert (k = 0)%nat as -> by lia. simpl.
      split; [exact Hs|lia].
  - destruct (Z.leb_spec (success_threshold (config b)) (success_count b + 1));
      [lia|].
    destruct Hstep as [Hs1 Hsc1].
    destruct (IH b1 w1 Hf Hs1) as [IHc IHk]; [lia|rewrite Hc, Hsc1; lia|].
    split.
    + cbn [calls]. rewrite Hcall. exact IHc.
    + intros [|k] Hk; [simpl; split; [exact Hs|lia]|].
      cbn [calls]. rewrite Hcall.
      destruct (IHk k) as [Hks Hkc]; [lia|].
      split; [exact Hks|]. rewrite Hkc, Hsc1. lia.
Qed.

Lemma half_open_successes_close_witness :
  always_returns slow /\
  state sample_half_open = HALF_OPEN /\
  success_count sample_half_open + Z.of_nat 1 =
    success_threshold (config sample_half_open) /\
  state (fst (calls 1 slow sample_half_open (world_at 200 2))) = CLOSED.
Proof.
  assert (Hret : always_returns slow) by (intros k; eexists; reflexivity).
  split; [exact Hret|]. split; [reflexivity|]. split; [reflexivity|].
  destruct (half_open_successes_close slow 1 sample_half_open (world_at 200 2)
              Hret eq_refl (Nat.lt_0_succ 0) eq_refl) as [(Hc & _) _].
  exact Hc.
Defined.

Lemma call_total_requests {V} (func : Operation V) b w :
  total_requests (snd (fst (call func b w))) = total_requests b + 1.
Proof.
  unfold call, call_guard, invoke, _on_success. simpl.
  destruct (state b) eqn:Hs; try destruct (negb _);
    try destruct (func (invocations w)) as [d [v|e]]; simpl;
    try rewrite Hs; try destruct (_ <=? _); reflexivity.
Qed.

(** X6.  Every call is counted: after [n] calls, whatever the state of the
    breaker and whatever the operation does, [total_requests] has grown by
    [n]. *)
Theorem calls_total_requests {V} (func : Operation V) n : forall b w,
  total_requests (fst (calls n func b w)) = total_requests b + Z.of_nat n.
Proof.
  induction n as [|n IH]; intros b w; [simpl; lia|].
  cbn [calls]. pose proof (call_total_requests func b w) as H1.
  destruct (call func b w) as [[r b1] w1]. simpl in H1.
  rewrite IH, H1. lia.
Qed.



(** ** RetryStrategy: success, no attempts, bad delays *)

Lemma execute_loop_run_returns {X V} s (func : Operation V) v :
  well_formed s ->
  forall m a k last (x : X) w,
    random_in_unit_interval w ->
    (a + k)%nat = Z.to_nat (max_attempts s) ->
    (m < k)%nat ->
    (forall j, (j < m)%nat ->
       exists e, snd (func (invocations w + j)%nat) = Raises e) ->
    snd (func (invocations w + m)%nat) = Returns v ->
    exists w',
      execute_loop s (run func) (seq a k) last x w = (Ok v, x, w') /\
      invocations w' = (invocations w + S m)%nat /\
      sleeps w' = sleeps w ++ map (attempt_delay s w a) (seq 0 m).
Proof.
  intros Hs. induction m as [|m IH]; intros a k last x w Hr Hak Hmk Hraise Hret.
  - destruct k as [|k]; [lia|]. cbn [seq execute_loop].
    unfold run, invoke. rewrite Nat.add_0_r in Hret.
    destruct (func (invocations w)) as [d o]. simpl in Hret. subst o.
    eexists. split; [reflexivity|]. simpl. split; [lia|].
    rewrite app_nil_r. reflexivity.
  - destruct k as [|k]; [lia|]. cbn [seq execute_loop].
    unfold run at 1, invoke.
    destruct (Hraise 0%nat) as [e He]; [lia|]. rewrite Nat.add_0_r in He.
    destruct (func (invocations w)) as [d o] eqn:Hfw. simpl in He. subst o.
    destruct (Z.ltb_spec (Z.of_nat a) (max_attempts s - 1)) as [_|Hge];
      [|lia].
    rewrite _calculate_delay_eq by (apply (wf_pow s Hs); lia).
    set (w1 := mkWorld (now w + d)%Q (S (invocations w)) (sleeps w) (draws w)
                 (random w)).
    assert (Hr1 : random_in_unit_interval w1) by exact Hr.
    rewrite time_sleep_attempt_delay by assumption.
    set (w2 := if jitter s
               then mkWorld (now w1) (invocations w1) (sleeps w1)
                      (S (draws w1)) (random w1)
               else w1).
    assert (Hw2 : random w2 = random w /\ invocations w2 = S (invocations w)
                  /\ sleeps w2 = sleeps w
                  /\ draws w2 = (if jitter s then S (draws w) else draws w)).
    { unfold w2. destruct (jitter s); simpl; auto. }
    destruct Hw2 as (Hw2r & Hw2i & Hw2s & Hw2d).
    set (w3 := mkWorld (now w2 + attempt_delay s w1 a 0)%Q (invocations w2)
                 (sleeps w2 ++ [attempt_delay s w1 a 0]) (draws w2)
                 (random w2)).
    destruct (IH (S a) k (Some e) x w3) as (w' & Hex & Hi & Hsl).
    + intros i. unfold w3. simpl. rewrite Hw2r. apply Hr.
    + lia.
    + lia.
    + intros j Hj. unfold w3. simpl. rewrite Hw2i.
      destruct (Hraise (S j)) as [e' He']; [lia|].
      exists e'. rewrite <- He'. f_equal. f_equal. lia.
    + unfold w3. simpl. rewrite Hw2i. rewrite <- Hret. f_equal. f_equal. lia.
    + exists w'. split; [exact Hex|]. split.
      * rewrite Hi. unfold w3. simpl. rewrite Hw2i. lia.
      * rewrite Hsl. unfold w3. cbn [sleeps]. rewrite Hw2s.
        cbn [seq map]. rewrite <- seq_shift, map_map, <- app_assoc.
        cbn [app]. f_equal. f_equal.
        apply map_ext. intros j. symmetry.
        apply attempt_delay_shift; simpl; assumption.
Qed.

(** X8.  For a policy whose delays can be computed and slept: when the first
    [n - 1] invocations raise and the [n]-th returns [v], with
    [n <= max_attempts], [execute] returns [v], has invoked the operation
    exactly [n] times, and has slept the [n - 1] delays of the attempts
    [0 .. n - 2] and none after the success. *)
Theorem execute_succeeds_on_nth_attempt {X V} s (func : Operation V) (x : X)
  w n v :
  well_formed s ->
  random_in_unit_interval w ->
  (1 <= n)%nat ->
  Z.of_nat n <= max_attempts s ->
  (forall j, (j < n - 1)%nat ->
     exists e, snd (func (invocations w + j)%nat) = Raises e) ->
  snd (func (invocations w + (n - 1))%nat) = Returns v ->
  exists w',
    execute s (run func) x w = (Ok v, x, w') /\
    invocations w' = (invocations w + n)%nat /\
    sleeps w' = sleeps w ++ map (attempt_delay s w 0) (seq 0 (n - 1)).
Proof.
  intros Hs Hr Hn Hmax Hraise Hret.
  destruct (execute_loop_run_returns s func v Hs (n - 1)%nat 0%nat
              (Z.to_nat (max_attempts s)) None x w Hr eq_refl)
    as (w' & Hex & Hi & Hsl); [lia|exact Hraise|exact Hret|].
  exists w'. split; [exact Hex|]. split; [lia|exact Hsl].
Qed.

Lemma execute_succeeds_on_nth_attempt_witness :
  well_formed (strategy_catalog "api_calls") /\
  random_in_unit_interval (world_at 0 0) /\
  exists w',
    execute (strategy_catalog "api_calls") (run flaky) tt (world_at 0 0) =
      (Ok 7, tt, w') /\
    invocations w' = 2%nat.
Proof.
  split; [apply strategy_catalog_well_formed|].
  split; [apply world_at_random|].
  destruct (execute_succeeds_on_nth_attempt (strategy_catalog "api_calls")
              flaky tt (world_at 0 0) 2 7
              (strategy_catalog_well_formed "api_calls") (world_at_random 0 0))
    as (w' & Hex & Hi & _).
  - lia.
  - simpl. lia.
  - intros j Hj. assert (j = 0)%nat as -> by lia. eexists. reflexivity.
  - reflexivity.
  - exists w'. split; [exact Hex|exact Hi].
Defined.

(** X9.  With [max_attempts <= 0] the loop of [execute] has no iteration:
    the function is not called, nothing is slept, and the "all attempts
    failed" error is raised with no original exception. *)
Theorem execute_without_attempts {X V} s (func : M X V) (x : X) w :
  max_attempts s <= 0 ->
  execute s func x w = (Err (RetriesFailedError (max_attempts s) None), x, w).
Proof.
  intros Hn. unfold execute.
  replace (Z.to_nat (max_attempts s)) with 0%nat by lia. reflexivity.
Qed.

Lemma execute_without_attempts_witness :
  max_attempts (mkRetry 0 1 60 2 true) <= 0 /\
  execute (mkRetry 0 1 60 2 true) (run failing) tt (world_at 0 0) =
    (Err (RetriesFailedError 0 None), tt, world_at 0 0).
Proof.
  assert (H : max_attempts (mkRetry 0 1 60 2 true) <= 0) by (simpl; lia).
  split; [exact H|].
  exact (execute_without_attempts (mkRetry 0 1 60 2 true) (run failing) tt
           (world_at 0 0) H).
Defined.

(** X10.  A policy with a negative [base_delay] and no jitter, at least two
    attempts allowed: when the first invocation raises, the delay computed,
    [min(base_delay, max_delay)], is negative and [time.sleep] raises:
    [ValueError], or [OverflowError] when the length does not fit the C
    clock.  This error leaves [execute] after a single invocation: no
    further attempt is made, nothing is slept, and the error is not the "all
    attempts failed" one. *)
Theorem execute_negative_delay_raises {X V} s (func : Operation V) (x : X)
  w d e :
  2 <= max_attempts s ->
  jitter s = false ->
  (base_delay s < 0)%Q ->
  func (invocations w) = (d, Raises e) ->
  exists w',
    execute s (run func) x w =
      (Err (if sleep_overflows (Qmin (base_delay s) (max_delay s))
            then OtherException "OverflowError"
                   "timestamp too large to convert to C _PyTime_t"
            else OtherException "ValueError"
                   "sleep length must be non-negative"),
       x, w') /\
    invocations w' = S (invocations w) /\
    sleeps w' = sleeps w.
Proof.
  intros Hn Hj Hb Hf. unfold execute.
  destruct (Z.to_nat (max_attempts s)) as [|k] eqn:Hk; [lia|].
  cbn [seq execute_loop]. unfold run, invoke. rewrite Hf.
  destruct (Z.ltb_spec (Z.of_nat 0) (max_attempts s - 1)) as [_|Hge]; [|lia].
  unfold _calculate_delay. rewrite Hj.
  assert (Hpow : float_pow (backoff_factor s) 0 = Ok 1%Q)
    by (vm_compute; reflexivity).
  rewrite Hpow. unfold time_sleep.
  set (delay := Qmin (base_delay s * 1)%Q (max_delay s)).
  assert (Heq : (delay == Qmin (base_delay s) (max_delay s))%Q)
    by (unfold delay; rewrite Qmult_1_r; reflexivity).
  assert (Hov : sleep_overflows (Qmin (base_delay s) (max_delay s)) =
                sleep_overflows delay)
    by (unfold sleep_overflows; cbv zeta; rewrite Heq; reflexivity).
  rewrite Hov.
  assert (Hneg : (delay < 0)%Q).
  { rewrite Heq. eapply Qle_lt_trans; [apply Q.le_min_l|exact Hb]. }
  destruct (sleep_overflows delay).
  - eexists. split; [reflexivity|]. split; reflexivity.
  - destruct (Qle_bool 0 delay) eqn:E.
    + apply Qle_bool_iff in E. lra.
    + eexists. split; [reflexivity|]. split; reflexivity.
Qed.

Lemma execute_negative_delay_raises_witness :
  2 <= max_attempts (mkRetry 3 (-1) 60 2 false) /\
  (base_delay (mkRetry 3 (-1) 60 2 false) < 0)%Q /\
  (exists w',
     execute (mkRetry 3 (-1) 60 2 false) (run failing) tt (world_at 0 0) =
       (Err (OtherException "ValueError" "sleep length must be non-negative"),
        tt, w') /\
     invocations w' = 1%nat) /\
  exists w',
    execute (mkRetry 3 (-10000000000) 60 2 false) (run failing) tt
      (world_at 0 0) =
      (Err (OtherException "OverflowError"
              "timestamp too large to convert to C _PyTime_t"),
       tt, w') /\
    invocations w' = 1%nat.
Proof.
  assert (H2 : 2 <= max_attempts (mkRetry 3 (-1) 60 2 false)) by (simpl; lia).
  assert (Hb : (base_delay (mkRetry 3 (-1) 60 2 false) < 0)%Q) by reflexivity.
  split; [exact H2|]. split; [exact Hb|]. split.
  - destruct (execute_negative_delay_raises (mkRetry 3 (-1) 60 2 false) failing
                tt (world_at 0 0) 0%Q (BuiltinTimeoutError "timed out")
                H2 eq_refl Hb eq_refl) as (w' & Hex & Hi & _).
    exists w'. split; [exact Hex|exact Hi].
  - destruct (execute_negative_delay_raises
                (mkRetry 3 (-10000000000) 60 2 false) failing
                tt (world_at 0 0) 0%Q (BuiltinTimeoutError "timed out")
                H2 eq_refl eq_refl eq_refl) as (w' & Hex & Hi & _).
    exists w'. split; [exact Hex|exact Hi].
Defined.

(** X11.  For a policy with no negative duration or factor and
    [random.random()] in [0, 1), whenever [backoff_factor ** attempt] is a
    float: the delay computed for the attempt is not negative and does not
    exceed [max_delay]; without jitter it is
    [base_delay * backoff_factor ^ attempt] as long as that is at most
    [max_delay]. *)
Theorem calculated_delay_bounds s attempt w :
  (0 <= base_delay s)%Q -> (0 <= max_delay s)%Q -> (0 <= backoff_factor s)%Q ->
  random_in_unit_interval w ->
  pow_in_range s attempt ->
  exists delay,
    fst (_calculate_delay s attempt w) = Ok delay /\
    (0 <= delay)%Q /\
    (delay <= max_delay s)%Q /\
    (jitter s = false ->
     (base_delay s * backoff_factor s ^ Z.of_nat attempt <= max_delay s)%Q ->
     (delay == base_delay s * backoff_factor s ^ Z.of_nat attempt)%Q).
Proof.
  intros Hb Hm Hf Hr Hp. rewrite _calculate_delay_eq by exact Hp. cbn [fst].
  exists (attempt_delay s w attempt 0). split; [reflexivity|].
  destruct (attempt_delay_bounds s w attempt 0 Hb Hm Hf Hr) as [H0 Hcap].
  split; [exact H0|]. split; [exact Hcap|].
  intros Hj Hle. unfold attempt_delay. rewrite Hj, Nat.add_0_r.
  unfold spec_delay. apply Q.min_l. exact Hle.
Qed.

Lemma calculated_delay_bounds_witness :
  random_in_unit_interval (world_at 0 0) /\
  pow_in_range (strategy_catalog "critical_operations") 9 /\
  exists delay,
    fst (_calculate_delay (strategy_catalog "critical_operations") 9
           (world_at 0 0)) = Ok delay /\
    (delay <= 10)%Q.
Proof.
  assert (Hp : pow_in_range (strategy_catalog "critical_operations") 9)
    by (vm_compute; reflexivity).
  split; [apply world_at_random|]. split; [exact Hp|].
  destruct (calculated_delay_bounds (strategy_catalog "critical_operations") 9
              (world_at 0 0)) as (delay & Hd & _ & Hcap & _);
    [vm_compute; discriminate..|apply world_at_random|exact Hp|].
  exists delay. split; [exact Hd|exact Hcap].
Defined.

(** ** EnhancedErrorRecovery: breakers and policies by name *)

(** X12.  [get_circuit_breaker] takes the configuration on first use only:
    a breaker missing from the registry is made closed with the
    configuration given (the default for [None]); asked again under any
    other configuration, the registry gives the same breaker back and does
    not change; and breakers under other names are never touched. *)
Theorem get_circuit_breaker_first_config r service_name cfg1 cfg2 :
  let r1 := fst (get_circuit_breaker r service_name cfg1) in
  let b1 := snd (get_circuit_breaker r service_name cfg1) in
  circuit_breakers r1 !! service_name = Some b1 /\
  get_circuit_breaker r1 service_name cfg2 = (r1, b1) /\
  (circuit_breakers r !! service_name = None ->
   b1 = CircuitBreaker_init (default CircuitBreakerConfig_default cfg1)
          service_name) /\
  (forall k, k <> service_name ->
     circuit_breakers r1 !! k = circuit_breakers r !! k).
Proof.
  unfold get_circuit_breaker.
  destruct (circuit_breakers r !! service_name) as [b|] eqn:Hl; simpl.
  - rewrite Hl. repeat split. discriminate.
  - rewrite lookup_insert_eq. repeat split.
    intros k Hk. apply lookup_insert_ne. congruence.
Qed.

(** X13.  [get_retry_strategy] builds a policy once per name: a name that is
    neither "api_calls" nor "critical_operations" and has no policy yet gets
    the default one (3 attempts, base 1, cap 60, factor 2, jitter); asked
    again, the registry gives the same policy back and does not change. *)
Theorem get_retry_strategy_cached r strategy_name :
  let r1 := fst (get_retry_strategy r strategy_name) in
  let s1 := snd (get_retry_strategy r strategy_name) in
  get_retry_strategy r1 strategy_name = (r1, s1) /\
  (retry_strategies r !! strategy_name = None ->
   strategy_name <> "api_calls" ->
   strategy_name <> "critical_operations" ->
   s1 = mkRetry 3 1 60 2 true) /\
  circuit_breakers r1 = circuit_breakers r.
Proof.
  unfold get_retry_strategy.
  destruct (retry_strategies r !! strategy_name) as [s0|] eqn:Hl; simpl.
  - rewrite Hl. repeat split. intros; discriminate.
  - rewrite lookup_insert_eq. repeat split.
    intros _ H1 H2. unfold strategy_catalog.
    apply String.eqb_neq in H1, H2. rewrite H1, H2. reflexivity.
Qed.

(** ** EnhancedErrorRecovery: telemetry *)

Lemma deque_append_length {A} maxlen (d : list A) x :
  length (deque_append maxlen d x) = Nat.min (S (length d)) maxlen.
Proof.
  unfold deque_append. cbv zeta. rewrite length_drop, !length_app.
  cbn [length]. lia.
Qed.

(** X14.  [_record_error] keeps the history within 100 records: a history of
    at most 100 records stays so; below 100 the new record is appended; at
    100 the oldest record is dropped and the new one appended.  The new
    record is always the last. *)
Theorem record_error_bounded_history r service_name e t :
  (length (recent_errors r) <= 100)%nat ->
  let r' := _record_error r service_name e t in
  let record := mkErrorRecord service_name e t in
  (length (recent_errors r') <= 100)%nat /\
  last (recent_errors r') = Some record /\
  ((length (recent_errors r) < 100)%nat ->
   recent_errors r' = recent_errors r ++ [record]) /\
  (length (recent_errors r) = 100%nat ->
   recent_errors r' = drop 1 (recent_errors r) ++ [record]).
Proof.
  intros Hlen. simpl. unfold deque_append. cbv zeta.
  rewrite !length_app. cbn [length].
  split; [rewrite length_drop, length_app; cbn [length]; lia|].
  assert (Hcase : (length (recent_errors r) < 100 \/
                   length (recent_errors r) = 100)%nat) by lia.
  split; [|split].
  - destruct Hcase as [Hlt|Heq].
    + replace (length (recent_errors r) + 1 - 100)%nat with 0%nat by lia.
      rewrite drop_0. apply last_snoc.
    + replace (length (recent_errors r) + 1 - 100)%nat with 1%nat by lia.
      rewrite drop_app_le by lia. apply last_snoc.
  - intros Hlt.
    replace (length (recent_errors r) + 1 - 100)%nat with 0%nat by lia.
    apply drop_0.
  - intros Heq.
    replace (length (recent_errors r) + 1 - 100)%nat with 1%nat by lia.
    apply drop_app_le. lia.
Qed.

Lemma record_error_bounded_history_witness :
  (length (recent_errors EnhancedErrorRecovery_init) <= 100)%nat /\
  recent_errors
    (_record_error EnhancedErrorRecovery_init "fpl_api"
       (CircuitOpenError "fpl_api") 5) =
    [mkErrorRecord "fpl_api" (CircuitOpenError "fpl_api") 5].
Proof.
  assert (H : (length (recent_errors EnhancedErrorRecovery_init) <= 100)%nat)
    by (simpl; lia).
  split; [exact H|].
  destruct (record_error_bounded_history EnhancedErrorRecovery_init "fpl_api"
              (CircuitOpenError "fpl_api") 5 H) as (_ & _ & Happ & _).
  apply Happ. simpl. lia.
Defined.

(** X15.  [_record_error] adds one to the error count of the service,
    counting from 0 when the service has none, and leaves the counts of the
    other services, the breakers and the policies as they are. *)
Theorem record_error_counts r service_name e t :
  let r' := _record_error r service_name e t in
  error_counts r' !! service_name =
    Some (default 0 (error_counts r !! service_name) + 1) /\
  (forall k, k <> service_name ->
     error_counts r' !! k = error_counts r !! k) /\
  circuit_breakers r' = circuit_breakers r /\
  retry_strategies r' = retry_strategies r.
Proof.
  simpl. split; [apply lookup_insert_eq|]. split; [|split; reflexivity].
  intros k Hk. apply lookup_insert_ne. congruence.
Qed.

(** X16.  [health_status] reports the newest records only: at most ten, and
    exactly the end of the history, in order (all of it when it has ten
    records or fewer); every breaker is reported by its metrics under its
    name, and the error counts as they are. *)
Theorem health_status_recent_errors r t :
  let h := health_status r t in
  (length (hs_recent_errors h) <= 10)%nat /\
  (exists older, recent_errors r = older ++ hs_recent_errors h) /\
  ((length (recent_errors r) <= 10)%nat ->
   hs_recent_errors h = recent_errors r) /\
  last (hs_recent_errors h) = last (recent_errors r) /\
  (forall k, hs_circuit_breakers h !! k = metrics <$> circuit_breakers r !! k) /\
  hs_error_counts h = error_counts r.
Proof.
  simpl. set (l := recent_errors r).
  split; [rewrite length_drop; lia|].
  split; [exists (take (length l - 10) l); symmetry; apply take_drop|].
  split.
  { intros Hle. replace (length l - 10)%nat with 0%nat by lia. apply drop_0. }
  split.
  { destruct (decide (length l <= 10)%nat) as [Hle|Hgt].
    - replace (length l - 10)%nat with 0%nat by lia. rewrite drop_0.
      reflexivity.
    - transitivity (last (take (length l - 10) l ++ drop (length l - 10) l));
        [|rewrite take_drop; reflexivity].
      rewrite last_app.
      destruct (last (drop (length l - 10) l)) eqn:Hlast; [reflexivity|].
      apply last_None in Hlast.
      apply (f_equal length) in Hlast. rewrite length_drop in Hlast.
      simpl in Hlast. lia. }
  split; [|reflexivity].
  intros k. apply lookup_fmap.
Qed.

Lemma get_circuit_breaker_other r service_name cfg k :
  k <> service_name ->
  circuit_breakers (fst (get_circuit_breaker r service_name cfg)) !! k =
    circuit_breakers r !! k.
Proof.
  intros Hk. unfold get_circuit_breaker.
  destruct (circuit_breakers r !! service_name); simpl; [reflexivity|].
  apply lookup_insert_ne. congruence.
Qed.

Lemma resilient_call_shape {V} (func : Operation V) service_name
  retry_strategy circuit_config r w :
  exists r2 retry cb0 res cb' w',
    get_circuit_breaker r service_name circuit_config
      = (fst (get_circuit_breaker r service_name circuit_config), cb0) /\
    get_retry_strategy
      (fst (get_circuit_breaker r service_name circuit_config)) retry_strategy
      = (r2, retry) /\
    execute retry (call func) cb0 w = (res, cb', w') /\
    error_counts r2 = error_counts r /\
    recent_errors r2 = recent_errors r /\
    (forall k, k <> service_name ->
       circuit_breakers r2 !! k = circuit_breakers r !! k) /\
    resilient_call func service_name retry_strategy circuit_config r w =
      match res with
      | Ok v =>
          (Ok v,
           mkRecovery (<[service_name := cb']> (circuit_breakers r2))
             (retry_strategies r2) (error_counts r2) (recent_errors r2), w')
      | Err e =>
          (Err e,
           _record_error
             (mkRecovery (<[service_name := cb']> (circuit_breakers r2))
                (retry_strategies r2) (error_counts r2) (recent_errors r2))
             service_name e (now w'), w')
      end.
Proof.
  unfold resilient_call.
  pose proof (get_circuit_breaker_other r service_name circuit_config)
    as Hother.
  assert (Hec : error_counts
                  (fst (get_circuit_breaker r service_name circuit_config))
                = error_counts r /\
                recent_errors
                  (fst (get_circuit_breaker r service_name circuit_config))
                = recent_errors r).
  { unfold get_circuit_breaker.
    destruct (circuit_breakers r !! service_name); split; reflexivity. }
  destruct Hec as [Hec Hre].
  destruct (get_circuit_breaker r service_name circuit_config) as [r1 cb0].
  simpl in *.
  assert (Hrs : error_counts (fst (get_retry_strategy r1 retry_strategy))
                = error_counts r1 /\
                recent_errors (fst (get_retry_strategy r1 retry_strategy))
                = recent_errors r1 /\
                circuit_breakers (fst (get_retry_strategy r1 retry_strategy))
                = circuit_breakers r1).
  { unfold get_retry_strategy.
    destruct (retry_strategies r1 !! retry_strategy); repeat split. }
  destruct Hrs as (Hec2 & Hre2 & Hcb2).
  destruct (get_retry_strategy r1 retry_strategy) as [r2 retry].
  simpl in *.
  destruct (execute retry (call func) cb0 w) as [[res cb'] w'] eqn:Hex.
  exists r2, retry, cb0, res, cb', w'.
  split; [reflexivity|]. split; [reflexivity|]. split; [exact Hex|].
  split; [congruence|]. split; [congruence|].
  split; [intros k Hk; rewrite Hcb2; apply (Hother k Hk)|].
  destruct res; reflexivity.
Qed.

(** X17.  What [resilient_call] records.  When it returns a value, the error
    counts and the history are as before.  When it raises, the count of the
    service has grown by one and one record, holding the error raised and
    the time of the raise, is the newest of the history.  Either way the
    breakers of other services are as before. *)
Theorem resilient_call_telemetry {V} (func : Operation V) service_name
  retry_strategy circuit_config r w :
  let out := resilient_call func service_name retry_strategy circuit_config
               r w in
  let r' := snd (fst out) in
  (forall k, k <> service_name ->
     circuit_breakers r' !! k = circuit_breakers r !! k) /\
  match fst (fst out) with
  | Ok _ =>
      error_counts r' = error_counts r /\
      recent_errors r' = recent_errors r
  | Err e =>
      error_counts r' =
        <[service_name := default 0 (error_counts r !! service_name) + 1]>
          (error_counts r) /\
      recent_errors r' =
        deque_append 100 (recent_errors r)
          (mkErrorRecord service_name e (now (snd out)))
  end.
Proof.
  destruct (resilient_call_shape func service_name retry_strategy
              circuit_config r w)
    as (r2 & retry & cb0 & res & cb' & w' & _ & _ & _ & Hec & Hre & Hother
        & ->).
  destruct res as [v|e]; simpl.
  - split; [|split; assumption].
    intros k Hk. rewrite lookup_insert_ne by congruence. apply Hother, Hk.
  - split; [|rewrite Hec, Hre; split; reflexivity].
    intros k Hk. rewrite lookup_insert_ne by congruence. apply Hother, Hk.
Qed.

(** X18.  Once the registry holds a breaker for a service, the
    [circuit_config] given to [resilient_call] has no effect: under any two
    configurations the call does the same. *)
Theorem resilient_call_ignores_later_config {V} (func : Operation V)
  service_name retry_strategy cfg1 cfg2 r w b :
  circuit_breakers r !! service_name = Some b ->
  resilient_call func service_name retry_strategy cfg1 r w =
  resilient_call func service_name retry_strategy cfg2 r w.
Proof.
  intros Hb. unfold resilient_call, get_circuit_breaker. rewrite Hb.
  reflexivity.
Qed.

Lemma resilient_call_ignores_later_config_witness :
  let r := fst (get_circuit_breaker EnhancedErrorRecovery_init "fpl_api" None) in
  circuit_breakers r !! "fpl_api" =
    Some (CircuitBreaker_init CircuitBreakerConfig_default "fpl_api") /\
  resilient_call failing "fpl_api" "api_calls" None r (world_at 0 0) =
  resilient_call failing "fpl_api" "api_calls" (Some sample_config) r
    (world_at 0 0).
Proof.
  assert (H : circuit_breakers
                (fst (get_circuit_breaker EnhancedErrorRecovery_init "fpl_api"
                        None)) !! "fpl_api" =
              Some (CircuitBreaker_init CircuitBreakerConfig_default "fpl_api"))
    by reflexivity.
  split; [exact H|].
  exact (resilient_call_ignores_later_config failing "fpl_api" "api_calls"
           None (Some sample_config) _ (world_at 0 0) _ H).
Defined.

(** ** Session cache: errors, expiry, resources *)

(** X19.  A stale or missing entry makes the cached function run exactly
    once.  When it raises, the error goes to the caller and the session is
    left as it was: no value and no timestamp are stored, so the error is not
    served again from the cache. *)
Theorem cached_call_error_not_cached {V} ttl key (func : Operation V) ss w
  d e :
  stale ss key ttl (now w) ->
  func (invocations w) = (d, Raises e) ->
  cached_call ttl key func ss w =
    (Err e, ss,
     mkWorld (now w + d)%Q (S (invocations w)) (sleeps w) (draws w)
       (random w)).
Proof.
  intros Hstale Hf. rewrite (cached_call_stale ttl key func ss w Hstale).
  unfold invoke. rewrite Hf. reflexivity.
Qed.

Lemma cached_call_error_not_cached_witness :
  stale (∅ : gmap string (SessionValue Z)) sample_key 300 (now (world_at 10 0)) /\
  cached_call 300 sample_key failing ∅ (world_at 10 0) =
    (Err (BuiltinTimeoutError "timed out"), ∅, world_at 10 1).
Proof.
  assert (Hstale : stale (∅ : gmap string (SessionValue Z)) sample_key 300
                     (now (world_at 10 0))) by (left; apply lookup_empty).
  split; [exact Hstale|].
  exact (cached_call_error_not_cached 300 sample_key failing ∅ (world_at 10 0)
           0%Q (BuiltinTimeoutError "timed out") Hstale eq_refl).
Defined.

(** X20.  An entry expires.  With an entry stored at time [cache_time], a
    call made [ttl] or more after it invokes the function again and, when it
    returns, replaces the value and the timestamp: the old value is not
    returned. *)
Theorem cached_call_refetches_after_ttl {V} ttl key (func : Operation V) ss w
  old cache_time d result :
  ss !! key = Some old ->
  ss !! timestamp_key key = Some (SFloat cache_time) ->
  (inject_Z ttl <= now w - cache_time)%Q ->
  func (invocations w) = (d, Returns result) ->
  exists ss1 w1,
    cached_call ttl key func ss w = (Ok (SResult result), ss1, w1) /\
    invocations w1 = S (invocations w) /\
    ss1 !! key = Some (SResult result) /\
    ss1 !! timestamp_key key = Some (SFloat (now w + d)%Q).
Proof.
  intros Hk Ht Hle Hf.
  assert (Hstale : stale ss key ttl (now w)).
  { right. exists cache_time. rewrite Ht. split; [reflexivity|exact Hle]. }
  rewrite (cached_call_stale ttl key func ss w Hstale).
  unfold invoke. rewrite Hf.
  eexists _, _. split; [reflexivity|]. split; [reflexivity|]. split.
  - rewrite lookup_insert_ne by apply timestamp_key_ne.
    apply lookup_insert_eq.
  - apply lookup_insert_eq.
Qed.

Lemma cached_call_refetches_after_ttl_witness :
  (inject_Z 300 <= now (world_at 400 0) - 0)%Q /\
  exists ss1 w1,
    cached_call 300 sample_key slow sample_session (world_at 400 0) =
      (Ok (SResult 7), ss1, w1) /\
    invocations w1 = 1%nat.
Proof.
  assert (Hle : (inject_Z 300 <= now (world_at 400 0) - 0)%Q).
  { unfold Qle. simpl. lia. }
  split; [exact Hle|].
  destruct (cached_call_refetches_after_ttl 300 sample_key slow sample_session
              (world_at 400 0) (SResult 7) 0%Q 31%Q 7
              eq_refl eq_refl Hle eq_refl) as (ss1 & w1 & Hc & Hi & _).
  exists ss1, w1. split; [exact Hc|exact Hi].
Defined.

(** X21.  A cached resource is made once.  When the session has no entry
    for the key and the function returns, the result is stored; from then on
    every call, at any time and with any arguments, gives that result without
    invoking the function: the arguments of later calls are ignored and the
    entry never expires. *)
Theorem cached_resource_made_once {A V} key (func : A -> Operation V) args ss
  w d result :
  ss !! key = None ->
  func args (invocations w) = (d, Returns result) ->
  exists ss1 w1,
    cached_resource key func args ss w = (Ok (SResult result), ss1, w1) /\
    invocations w1 = S (invocations w) /\
    forall args2 w2,
      cached_resource key func args2 ss1 w2 = (Ok (SResult result), ss1, w2).
Proof.
  intros Hk Hf. unfold cached_resource at 1. rewrite Hk.
  unfold invoke. rewrite Hf.
  eexists _, _. split; [reflexivity|]. split; [reflexivity|].
  intros args2 w2. unfold cached_resource.
  rewrite lookup_insert_eq. reflexivity.
Qed.

Lemma cached_resource_made_once_witness :
  (∅ : gmap string (SessionValue Z)) !! resource_key "services" "get_model" = None /\
  exists ss1 w1,
    cached_resource (resource_key "services" "get_model")
      (fun _ : unit => slow) tt ∅ (world_at 0 0) =
      (Ok (SResult 7), ss1, w1) /\
    invocations w1 = 1%nat.
Proof.
  assert (Hk : (∅ : gmap string (SessionValue Z))
               !! resource_key "services" "get_model" = None)
    by apply lookup_empty.
  split; [exact Hk|].
  destruct (cached_resource_made_once (resource_key "services" "get_model")
              (fun _ : unit => slow) tt ∅ (world_at 0 0) 31%Q 7 Hk eq_refl)
    as (ss1 & w1 & Hc & Hi & _).
  exists ss1, w1. split; [exact Hc|exact Hi].
Defined.

(** ** Session cache: keys and statistics *)

Lemma has_underscore_app_l a b :
  has_underscore a = true -> has_underscore (a +:+ b) = true.
Proof.
  induction a as [|c a IH]; [discriminate|].
  change (String c a +:+ b) with (String c (a +:+ b)). simpl.
  destruct (Ascii.eqb c "_"); [reflexivity|exact IH].
Qed.

Lemma has_underscore_sep a b : has_underscore (a +:+ "_" +:+ b) = true.
Proof.
  induction a as [|c a IH]; [reflexivity|].
  change (String c a +:+ "_" +:+ b) with (String c (a +:+ "_" +:+ b)).
  simpl. destruct (Ascii.eqb c "_"); [reflexivity|exact IH].
Qed.

Lemma cache_key_not_statistics func_module func_name args_hash :
  cache_key func_module func_name args_hash <> "cache_stats" /\
  timestamp_key (cache_key func_module func_name args_hash) <> "cache_stats".
Proof.
  assert (Hrest : forall rest,
            "cache_" +:+ func_module +:+ "_" +:+ rest <> "cache_stats").
  { intros rest H.
    change "cache_stats" with ("cache_" +:+ "stats") in H.
    apply (inj (String.app "cache_")) in H.
    pose proof (has_underscore_sep func_module rest) as Hu.
    rewrite H in Hu. discriminate Hu. }
  assert (Hts : forall rest,
            ("cache_" +:+ func_module +:+ "_" +:+ rest) +:+ "_timestamp"
            <> "cache_stats").
  { intros rest H.
    change (("cache_" +:+ func_module +:+ "_" +:+ rest) +:+ "_timestamp")
      with ("cache_" +:+ ((func_module +:+ "_" +:+ rest) +:+ "_timestamp"))
      in H.
    change "cache_stats" with ("cache_" +:+ "stats") in H.
    apply (inj (String.app "cache_")) in H.
    pose proof (has_underscore_app_l _ "_timestamp"
                  (has_underscore_sep func_module rest)) as Hu.
    rewrite H in Hu. discriminate Hu. }
  unfold cache_key, timestamp_key.
  destruct args_hash as [h|]; split; first [apply Hrest|apply Hts].
Qed.

(** X22.  The cache and the statistics do not collide.  A key built by the
    wrapper of [cache_expensive_calculation] and its timestamp key both
    differ from "cache_stats", so a cached call, hit or fetch, leaves the
    statistics entry of the session as it is; and recording a hit or a miss
    leaves the cached value and its timestamp as they are. *)
Theorem cached_call_keeps_statistics {V} ttl func_module func_name args_hash
  (func : Operation V) (ss : gmap string (SessionValue V)) w :
  let key := cache_key func_module func_name args_hash in
  let ss' := snd (fst (cached_call ttl key func ss w)) in
  ss' !! "cache_stats" = ss !! "cache_stats" /\
  get_cache_stats ss' = get_cache_stats ss /\
  record_cache_hit ss !! key = ss !! key /\
  record_cache_hit ss !! timestamp_key key = ss !! timestamp_key key /\
  record_cache_miss ss !! key = ss !! key /\
  record_cache_miss ss !! timestamp_key key = ss !! timestamp_key key.
Proof.
  intros key ss'.
  destruct (cache_key_not_statistics func_module func_name args_hash)
    as [Hk Ht]. fold key in Hk, Ht.
  assert (Hstats : ss' !! "cache_stats" = ss !! "cache_stats").
  { unfold ss', cached_call, invoke.
    destruct (func (invocations w)) as [d [v|e]];
      destruct (ss !! key); simpl;
      try destruct (default (SFloat 0) (ss !! timestamp_key key));
      try destruct (negb _); simpl;
      try reflexivity;
      rewrite !lookup_insert_ne by assumption; reflexivity. }
  split; [exact Hstats|].
  split; [unfold get_cache_stats; rewrite Hstats; reflexivity|].
  unfold record_cache_hit, record_cache_miss.
  destruct (ss !! "cache_stats") as [[v|t|h m i]|];
    repeat split; try reflexivity;
    apply lookup_insert_ne; congruence.
Qed.

(** X23.  The statistics of [CacheManager].  Creating a manager never resets
    statistics that exist, and creating it twice is creating it once.
    Before any manager was created there is no statistics entry and
    recording a hit or a miss changes nothing.  With statistics
    [(h, m, i)], a hit gives [(h + 1, m, i)], a miss [(h, m + 1, i)], and
    the two commute. *)
Theorem cache_manager_statistics {V} (ss : gmap string (SessionValue V)) :
  CacheManager_init (CacheManager_init ss) = CacheManager_init ss /\
  get_cache_stats (CacheManager_init ss) = get_cache_stats ss /\
  (ss !! "cache_stats" = None ->
   record_cache_hit ss = ss /\ record_cache_miss ss = ss) /\
  (forall h m i, ss !! "cache_stats" = Some (SStats h m i) ->
   CacheManager_init ss = ss /\
   get_cache_stats (record_cache_hit ss) = SStats (h + 1) m i /\
   get_cache_stats (record_cache_miss ss) = SStats h (m + 1) i /\
   record_cache_hit (record_cache_miss ss) =
     record_cache_miss (record_cache_hit ss)).
Proof.
  unfold CacheManager_init, get_cache_stats, record_cache_hit,
    record_cache_miss.
  destruct (ss !! "cache_stats") as [s0|] eqn:Hl.
  - rewrite Hl. split; [reflexivity|]. split; [reflexivity|].
    split; [discriminate|].
    intros h m i [= ->]. rewrite !lookup_insert_eq.
    split; [reflexivity|]. split; [reflexivity|]. split; [reflexivity|].
    rewrite !insert_insert_eq. reflexivity.
  - rewrite lookup_insert_eq. split; [reflexivity|]. split; [reflexivity|].
    split; [intros _; split; reflexivity|]. discriminate.
Qed.

(** ** Batches *)





(** ** The connection test *)

Section ExecuteState.

Context {X V : Type} (s : RetryStrategy) (func : M X V) (P : X -> Prop).
Hypothesis func_keeps :
  forall x w r x' w', P x -> func x w = (r, x', w') -> P x'.

Lemma execute_loop_keeps :
  forall attempts last x w res x' w',
    P x ->
    execute_loop s func attempts last x w = (res, x', w') ->
    P x'.
Proof.
  induction attempts as [|a attempts IH]; intros last x w res x' w' Hx.
  - simpl. intros [= _ <- _]. exact Hx.
  - cbn [execute_loop].
    destruct (func x w) as [[r1 x1] w1] eqn:Hf.
    pose proof (func_keeps _ _ _ _ _ Hx Hf) as Hx1.
    destruct r1 as [v|e]; [intros [= _ <- _]; exact Hx1|].
    destruct (Z.of_nat a <? max_attempts s - 1).
    + destruct (_calculate_delay s a w1) as [[delay|e'] w2];
        [|intros [= _ <- _]; exact Hx1].
      unfold time_sleep. destruct (sleep_overflows delay);
        [intros [= _ <- _]; exact Hx1|].
      destruct (Qle_bool 0 delay).
      * apply IH, Hx1.
      * intros [= _ <- _]. exact Hx1.
    + apply IH, Hx1.
Qed.

End ExecuteState.

Lemma is_FPLError_not_timeout e :
  is_FPLError e = true -> is_timeout_or_connection e = false.
Proof. destruct e; simpl; intros H; first [reflexivity|discriminate H]. Qed.

Lemma call_keeps_total_timeouts {V} (func : Operation V) n b w r b' w' :
  raises_only_FPLError func ->
  total_timeouts b = n ->
  call func b w = (r, b', w') ->
  total_timeouts b' = n.
Proof.
  intros Hfpl Hn. unfold call.
  destruct (call_guard b w) as [[g b1] w1] eqn:Hg.
  destruct (call_guard_totals _ _ _ _ _ Hg) as [_ Hgt].
  pose proof (call_guard_world _ _ _ _ _ Hg) as ->.
  destruct g as [u|e]; [|intros [= _ <- _]; congruence].
  unfold invoke. pose proof (Hfpl (invocations w)) as Hk.
  destruct (func (invocations w)) as [d [v|e]]; intros [= _ <- _].
  - destruct (_on_success_totals b1 (now w + d - now w)%Q) as [_ Hst].
    simpl in Hst. congruence.
  - simpl. rewrite (is_FPLError_not_timeout e (Hk e eq_refl)). congruence.
Qed.

(** X25.  The connection test does not raise.  With the registry's policies
    from the catalog and [random.random()] in [0, 1), and a closure that
    raises [FPLError]s only: [test_connection] returns a value, [False] when
    the three attempts failed; and since no error of the closure is a
    [TimeoutError] or a [ConnectionError], [total_timeouts] of the "fpl_api"
    breaker is what it was (0 for a new breaker). *)
Theorem test_connection_returns (func : Operation bool) r w :
  strategies_from_catalog r ->
  random_in_unit_interval w ->
  raises_only_FPLError func ->
  exists v r' w',
    test_connection func r w = (Ok v, r', w') /\
    (forall e r1 w1,
       resilient_call func "fpl_api" "api_calls" None r w = (Err e, r1, w1) ->
       v = false) /\
    total_timeouts <$> (circuit_breakers r' !! "fpl_api") =
      Some (default 0 (total_timeouts <$> (circuit_breakers r !! "fpl_api"))).
Proof.
  intros Hcat Hr Hfpl. unfold test_connection.
  destruct (resilient_call_shape func "fpl_api" "api_calls" None r w)
    as (r2 & retry & cb0 & res & cb' & w' & Hgcb & Hgrs & Hex & _ & _ & _
        & Hrc).
  rewrite Hrc.
  (* the policy is the catalog's *)
  assert (Hcat1 : strategies_from_catalog
                    (fst (get_circuit_breaker r "fpl_api" None))).
  { intros k s0. rewrite get_circuit_breaker_strategies. apply Hcat. }
  destruct (get_retry_strategy_catalog _ "api_calls" Hcat1) as (Hretry & _ & _).
  rewrite Hgrs in Hretry. simpl in Hretry. subst retry.
  (* the timeouts of the breaker the loop runs on *)
  assert (Hcb0 : total_timeouts cb0 =
                 default 0 (total_timeouts <$> (circuit_breakers r !! "fpl_api"))).
  { revert Hgcb. unfold get_circuit_breaker.
    destruct (circuit_breakers r !! "fpl_api") as [b|]; simpl;
      intros [= <-]; reflexivity. }
  assert (Hcb' : total_timeouts cb' =
                 default 0 (total_timeouts <$> (circuit_breakers r !! "fpl_api"))).
  { unfold execute in Hex.
    eapply (execute_loop_keeps (strategy_catalog "api_calls") (call func)
              (fun b => total_timeouts b =
                 default 0 (total_timeouts <$> (circuit_breakers r !! "fpl_api"))));
      [|exact Hcb0|exact Hex].
    intros x w0 r0 x' w0' Hx Hcall.
    eapply call_keeps_total_timeouts; eauto. }
  unfold execute in Hex.
  apply (execute_loop_error (strategy_catalog "api_calls") (call func)
           (strategy_catalog_well_formed "api_calls") (call_random func))
    in Hex; [|exact Hr|reflexivity].
  destruct Hex as [_ Hres].
  destruct res as [v|e].
  - exists v. eexists _, _. split; [reflexivity|]. split; [discriminate|].
    simpl. rewrite lookup_insert_eq. simpl. rewrite Hcb'. reflexivity.
  - destruct Hres as (last' & -> & _). simpl.
    exists false. eexists _, _. split; [reflexivity|].
    split; [reflexivity|].
    simpl. rewrite lookup_insert_eq. simpl. rewrite Hcb'. reflexivity.
Qed.

Lemma test_connection_returns_witness :
  strategies_from_catalog EnhancedErrorRecovery_init /\
  random_in_unit_interval (world_at 0 0) /\
  raises_only_FPLError
    (fun _ : nat => (0%Q, @Raises bool (OtherException "FPLError" "API connection timeout"))) /\
  exists r' w',
    test_connection
      (fun _ : nat => (0%Q, Raises (OtherException "FPLError" "API connection timeout")))
      EnhancedErrorRecovery_init (world_at 0 0) = (Ok false, r', w').
Proof.
  assert (Hfpl : raises_only_FPLError
            (fun _ : nat =>
               (0%Q, @Raises bool
                       (OtherException "FPLError" "API connection timeout")))).
  { intros k e [= <-]. reflexivity. }
  split; [exact init_strategies_from_catalog|].
  split; [apply world_at_random|]. split; [exact Hfpl|].
  destruct (test_connection_returns _ EnhancedErrorRecovery_init (world_at 0 0)
              init_strategies_from_catalog (world_at_random 0 0) Hfpl)
    as (v & r' & w' & Htc & Hfalse & _).
  exists r', w'.
  destruct (resilient_call
              (fun _ : nat =>
                 (0%Q, @Raises bool
                         (OtherException "FPLError" "API connection timeout")))
              "fpl_api" "api_calls" None EnhancedErrorRecovery_init
              (world_at 0 0)) as [[res r1] w1] eqn:Hrc.
  assert (Hres : exists e, res = Err e).
  { vm_compute in Hrc. injection Hrc as <- _ _. eexists. reflexivity. }
  destruct Hres as [e ->].
  rewrite (Hfalse e r1 w1 eq_refl) in Htc. exact Htc.
Defined.

(** ** Pages *)

Lemma total_pages_bound (n : nat) page_size page :
  (1 <= n)%nat -> 1 <= page_size ->
  1 <= page <= total_pages n page_size ->
  0 <= (page - 1) * page_size <= Z.of_nat n - 1.
Proof.
  intros Hn Hps [Hp1 Hp2]. unfold total_pages in Hp2.
  assert (Hdiv : 0 <= (Z.of_nat n - 1) / page_size)
    by (apply Z.div_pos; lia).
  assert (Hmul : page_size * ((Z.of_nat n - 1) / page_size) <= Z.of_nat n - 1)
    by (apply Z.mul_div_le; lia).
  split; [nia|]. 
  assert (page - 1 <= (Z.of_nat n - 1) / page_size) by lia.
  nia.
Qed.

Lemma paginate_rows {A} (df : list A) page_size page :
  df <> [] -> 1 <= page_size ->
  1 <= page <= total_pages (length df) page_size ->
  paginate_dataframe df page_size page =
    Ok (take (Z.to_nat (Z.min page_size
                          (Z.of_nat (length df) - (page - 1) * page_size)))
             (drop (Z.to_nat ((page - 1) * page_size)) df)).
Proof.
  intros Hne Hps Hpage.
  assert (Hn : (1 <= length df)%nat) by (destruct df; [congruence|simpl; lia]).
  destruct (total_pages_bound (length df) page_size page Hn Hps Hpage)
    as [Hs0 Hs1].
  unfold paginate_dataframe. destruct df as [|a df]; [congruence|].
  destruct (Z.eqb_spec page_size 0); [lia|].
  set (l := a :: df) in *. unfold iloc_slice, slice_index.
  destruct (Z.ltb_spec ((page - 1) * page_size) 0); [lia|].
  destruct (Z.ltb_spec (Z.min ((page - 1) * page_size + page_size)
                          (Z.of_nat (length l))) 0); [lia|].
  f_equal. f_equal; [lia|f_equal; lia].
Qed.

(** X26.  A page of a frame with rows, for a page size of at least 1 and a
    page number the widget allows: the page has between 1 and [page_size]
    rows, they are the rows of the frame from index
    [(page - 1) * page_size] on, in order, and every page before the last
    one is full. *)
Theorem paginate_page_rows {A} (df : list A) page_size page :
  df <> [] -> 1 <= page_size ->
  1 <= page <= total_pages (length df) page_size ->
  exists rows,
    paginate_dataframe df page_size page = Ok rows /\
    (1 <= length rows <= Z.to_nat page_size)%nat /\
    (forall j, (j < length rows)%nat ->
       rows !! j = df !! (Z.to_nat ((page - 1) * page_size) + j)%nat) /\
    (page < total_pages (length df) page_size ->
     length rows = Z.to_nat page_size).
Proof.
  intros Hne Hps Hpage.
  assert (Hn : (1 <= length df)%nat) by (destruct df; [congruence|simpl; lia]).
  destruct (total_pages_bound (length df) page_size page Hn Hps Hpage)
    as [Hs0 Hs1].
  eexists. split; [apply paginate_rows; assumption|].
  rewrite length_take, length_drop.
  split; [lia|]. split.
  - intros j Hj. rewrite lookup_take_lt by lia. apply lookup_drop.
  - intros Hlt.
    destruct (total_pages_bound (length df) page_size (page + 1) Hn Hps)
      as [_ Hnext]; [lia|].
    replace (page + 1 - 1) with page in Hnext by lia. nia.
Qed.

Lemma paginate_page_rows_witness :
  [10; 20; 30; 40; 50] <> @nil Z /\
  1 <= 3 <= total_pages (length [10; 20; 30; 40; 50]) 2 /\
  paginate_dataframe [10; 20; 30; 40; 50] 2 3 = Ok [50] /\
  paginate_dataframe [10; 20; 30; 40; 50] 2 2 = Ok [30; 40].
Proof.
  assert (Hne : [10; 20; 30; 40; 50] <> @nil Z) by discriminate.
  assert (Hp : 1 <= 3 <= total_pages (length [10; 20; 30; 40; 50]) 2)
    by (vm_compute; split; discriminate).
  split; [exact Hne|]. split; [exact Hp|].
  destruct (paginate_page_rows [10; 20; 30; 40; 50] 2 3 Hne) as (rows & H & _);
    [lia|exact Hp|].
  split; reflexivity.
Defined.

(** X27.  The pages cover the frame.  For a page size of at least 1, the row
    at index [i] of the frame is on page [i // page_size + 1], which the
    widget allows, at position [i mod page_size]. *)
Theorem paginate_covers_rows {A} (df : list A) page_size (i : nat) :
  1 <= page_size ->
  (i < length df)%nat ->
  let page := Z.of_nat i / page_size + 1 in
  1 <= page <= total_pages (length df) page_size /\
  exists rows,
    paginate_dataframe df page_size page = Ok rows /\
    rows !! Z.to_nat (Z.of_nat i mod page_size) = df !! i.
Proof.
  intros Hps Hi page.
  assert (Hne : df <> []) by (destruct df; [simpl in Hi; lia|discriminate]).
  assert (Hq : 0 <= Z.of_nat i / page_size) by (apply Z.div_pos; lia).
  assert (Hle : Z.of_nat i / page_size <= (Z.of_nat (length df) - 1) / page_size)
    by (apply Z.div_le_mono; lia).
  assert (Hpage : 1 <= page <= total_pages (length df) page_size)
    by (unfold page, total_pages; lia).
  split; [exact Hpage|].
  eexists. split; [apply paginate_rows; assumption|].
  pose proof (Z.div_mod (Z.of_nat i) page_size) as Hdm.
  pose proof (Z.mod_pos_bound (Z.of_nat i) page_size) as Hmod.
  replace (page - 1) with (Z.of_nat i / page_size) by (unfold page; lia).
  rewrite lookup_take_lt by nia.
  rewrite lookup_drop. f_equal. nia.
Qed.

Lemma paginate_covers_rows_witness :
  1 <= 2 /\ (4 < length [10; 20; 30; 40; 50])%nat /\
  exists rows,
    paginate_dataframe [10; 20; 30; 40; 50] 2 3 = Ok rows /\
    rows !! 0%nat = Some 50.
Proof.
  split; [lia|]. split; [simpl; lia|].
  destruct (paginate_covers_rows [10; 20; 30; 40; 50] 2 4) as (_ & rows & H & Hr);
    [lia|simpl; lia|].
  exists rows. split; [exact H|exact Hr].
Defined.
